(** * core-js-101, [src/06-objects-tasks.js]: Rectangle, JSON helpers and the
    CSS selector builder.

    The JavaScript of the task file is embedded shallowly:
    - a JavaScript string is a [string]; every character stands for one code
      unit in the range 0..255;
    - a JavaScript number is a binary64 float ([PrimFloat.float]);
    - the objects of class [MyCssSelector] live in a store (a list indexed by
      location), because [combine] keeps references to its arguments and the
      fluent methods mutate their receiver in place;
    - a method is a computation in a state-and-exception monad over that
      store: a [throw] leaves the store as it is at that point. *)

From Stdlib Require Import String Ascii ZArith List Lia Bool.
From Stdlib Require Import Floats.PrimFloat.
From stdpp Require Import base list strings.

Local Open Scope Z_scope.
Local Open Scope nat_scope.

(** ** Strings and arrays of the JavaScript runtime *)

(** [WhiteSpace] and [LineTerminator] code units below 256: TAB, LF, VT, FF,
    CR, SP and NBSP. *)
Definition isWhiteSpace (c : ascii) : bool :=
  match N_of_ascii c with
  | 9%N | 10%N | 11%N | 12%N | 13%N | 32%N | 160%N => true
  | _ => false
  end.

Fixpoint trimStart (s : string) : string :=
  match s with
  | EmptyString => EmptyString
  | String c s' => if isWhiteSpace c then trimStart s' else s
  end.

Fixpoint trimEnd (s : string) : string :=
  match s with
  | EmptyString => EmptyString
  | String c s' =>
      match trimEnd s' with
      | EmptyString => if isWhiteSpace c then EmptyString else String c EmptyString
      | t => String c t
      end
  end.

(** [String.prototype.trim] *)
Definition trim (s : string) : string := trimEnd (trimStart s).

(** [Array.prototype.indexOf]: the first index holding [x], or -1. *)
Fixpoint indexOf_from (x : string) (l : list string) (i : Z) : Z :=
  match l with
  | [] => (-1)%Z
  | y :: l' => if String.eqb y x then i else indexOf_from x l' (i + 1)%Z
  end.

Definition indexOf (x : string) (l : list string) : Z := indexOf_from x l 0%Z.

(** [Array.prototype.slice] with one argument; a negative start counts from
    the end of the array. *)
Definition slice {A} (start : Z) (l : list A) : list A :=
  if (start <? 0)%Z
  then drop (Z.to_nat (Z.max 0 (Z.of_nat (length l) + start))) l
  else drop (Z.to_nat start) l.

(** [Array.prototype.reduce] with an initial value. *)
Definition reduce {A B} (f : B -> A -> B) (init : B) (l : list A) : B :=
  fold_left f l init.

(** [reduce] whose callback may fail to return. *)
Fixpoint reduce_opt {A B} (f : B -> A -> option B) (init : B) (l : list A)
  : option B :=
  match l with
  | [] => Some init
  | x :: l' => match f init x with
               | Some acc => reduce_opt f acc l'
               | None => None
               end
  end.

(** The values a fragment property of a selector can hold. *)
Inductive value :=
| VUndefined
| VString (s : string)
| VArray (a : list string).

Definition of_option (o : option string) : value :=
  match o with
  | None => VUndefined
  | Some s => VString s
  end.

(** [ToBoolean] *)
Definition truthy (v : value) : bool :=
  match v with
  | VUndefined => false
  | VString s => negb (String.eqb s "")
  | VArray _ => true
  end.

(** The [length] property of a string or an array. *)
Definition length_of (v : value) : nat :=
  match v with
  | VUndefined => 0
  | VString s => String.length s
  | VArray a => length a
  end.

(** [ToBoolean (v && v.length)] *)
Definition and_length (v : value) : bool :=
  if truthy v then negb (Nat.eqb (length_of v) 0) else false.

(** [x === y] on numbers: the equality of IEEE 754, for which [NaN] differs
    from every number, itself included. *)
Definition strict_equals (x y : float) : bool := PrimFloat.eqb x y.

(** ** Exceptions and the store monad *)

Inductive exn := Error (message : string).

Inductive completion (A : Type) :=
| Normal (a : A)
| Throw (e : exn).
Arguments Normal {A} a.
Arguments Throw {A} e.

Section Monad.
Context {S : Type}.

Definition M (A : Type) : Type := S -> S * completion A.

Definition ret {A} (a : A) : M A := fun s => (s, Normal a).

Definition throw {A} (e : exn) : M A := fun s => (s, Throw e).

Definition bind {A B} (m : M A) (k : A -> M B) : M B :=
  fun s => match m s with
           | (s', Normal a) => k a s'
           | (s', Throw e) => (s', Throw e)
           end.
End Monad.
Arguments M : clear implicits.

Notation "x <- m ;; k" := (bind m (fun x => k))
  (at level 100, m at next level, right associativity).
Notation "m ;; k" := (bind m (fun _ => k))
  (at level 100, right associativity).

(** ** Rectangle *)

Module Rectangle.
Record t := mk { width : float; height : float }.

(** [new Rectangle(width, height)] *)
Definition new (width height : float) : t :=
  {| width := width; height := height |}.

(** [this.getArea = () => this.width * this.height]: the call reads the two
    fields of the object it was created on and hands the object back. *)
Definition getArea (this : t) : t * float :=
  (this, PrimFloat.mul (width this) (height this)).
End Rectangle.

(** ** The selector class *)

Definition loc := nat.

Inductive item :=
| ISelector (l : loc)
| IString (s : string).

Module MyCssSelector.

Record t := mk {
  myElement : option string;
  myId : option string;
  myClasses : list string;
  myAttr : option string;
  myPseudoClasses : list string;
  myPseudoElement : option string;
  subBuilders : list item
}.

(** [this.order]: assigned by the constructor and never written again. *)
Definition order : list string :=
  ["myElement"; "myId"; "myClasses"; "myAttr"; "myPseudoClasses";
   "myPseudoElement"].

(** The store: the selectors made so far, by location. *)
Abbreviation heap := (list t).

Definition OrderViolation : exn :=
  Error "Selector parts should be arranged in the following order: element, id, class, attribute, pseudo-class, pseudo-element".

Definition DuplicateFragment : exn :=
  Error "/Element, id and pseudo-element should not occur more then one time inside the selector/".

(** Raised by the runtime when [this] is not an object. *)
Definition TypeError : exn := Error "Cannot read properties of undefined".

(** [this[name]] for the names of [order] *)
Definition prop (o : t) (name : string) : value :=
  if String.eqb name "myElement" then of_option (myElement o)
  else if String.eqb name "myId" then of_option (myId o)
  else if String.eqb name "myClasses" then VArray (myClasses o)
  else if String.eqb name "myAttr" then of_option (myAttr o)
  else if String.eqb name "myPseudoClasses" then VArray (myPseudoClasses o)
  else if String.eqb name "myPseudoElement" then of_option (myPseudoElement o)
  else VUndefined.

Definition set_myElement (v : string) (o : t) : t :=
  mk (Some v) (myId o) (myClasses o) (myAttr o) (myPseudoClasses o)
     (myPseudoElement o) (subBuilders o).
Definition set_myId (v : string) (o : t) : t :=
  mk (myElement o) (Some v) (myClasses o) (myAttr o) (myPseudoClasses o)
     (myPseudoElement o) (subBuilders o).
Definition push_myClasses (v : string) (o : t) : t :=
  mk (myElement o) (myId o) (myClasses o ++ [v]) (myAttr o)
     (myPseudoClasses o) (myPseudoElement o) (subBuilders o).
Definition set_myAttr (v : string) (o : t) : t :=
  mk (myElement o) (myId o) (myClasses o) (Some v) (myPseudoClasses o)
     (myPseudoElement o) (subBuilders o).
Definition push_myPseudoClasses (v : string) (o : t) : t :=
  mk (myElement o) (myId o) (myClasses o) (myAttr o)
     (myPseudoClasses o ++ [v]) (myPseudoElement o) (subBuilders o).
Definition set_myPseudoElement (v : string) (o : t) : t :=
  mk (myElement o) (myId o) (myClasses o) (myAttr o) (myPseudoClasses o)
     (Some v) (subBuilders o).
Definition push_subBuilders (l : list item) (o : t) : t :=
  mk (myElement o) (myId o) (myClasses o) (myAttr o) (myPseudoClasses o)
     (myPseudoElement o) (subBuilders o ++ l).

(** Reading and writing the receiver. *)
Definition read (this : loc) : M heap t :=
  fun h => match h !! this with
           | Some o => (h, Normal o)
           | None => (h, Throw TypeError)
           end.

Definition write (this : loc) (f : t -> t) : M heap unit :=
  fun h => match h !! this with
           | Some o => (<[this := f o]> h, Normal tt)
           | None => (h, Throw TypeError)
           end.

(** The object the constructor initialises: the fragment properties are
    undefined and the three arrays are empty. *)
Definition initial : t := mk None None [] None [] None [].

(** [new MyCssSelector()] *)
Definition new : M heap loc :=
  fun h => (h ++ [initial], Normal (length h)).

Definition checkAfterElemsExist (this : loc) (name : string) : M heap unit :=
  o <- read this ;;
  let idx := indexOf name order in
  let arr := slice (idx + 1)%Z order in
  let found := List.find (fun item => and_length (prop o item)) arr in
  if truthy (of_option found) then throw OrderViolation else ret tt.

Definition combine (this : loc) (selector1 : loc) (combinator : string)
    (selector2 : loc) : M heap loc :=
  write this (push_subBuilders
                [ISelector selector1; IString combinator; ISelector selector2]) ;;
  ret this.

Definition element (this : loc) (elem : string) : M heap loc :=
  checkAfterElemsExist this "myElement" ;;
  o <- read this ;;
  if truthy (of_option (myElement o)) then throw DuplicateFragment else
  write this (set_myElement elem) ;;
  ret this.

Definition getElement (o : t) : string :=
  if truthy (of_option (myElement o)) then default "" (myElement o) else "".

Definition id (this : loc) (val : string) : M heap loc :=
  checkAfterElemsExist this "myId" ;;
  o <- read this ;;
  if truthy (of_option (myId o)) then throw DuplicateFragment else
  write this (set_myId val) ;;
  ret this.

Definition getId (o : t) : string :=
  if truthy (of_option (myId o)) then "#" +:+ default "" (myId o) else "".

Definition attr (this : loc) (val : string) : M heap loc :=
  checkAfterElemsExist this "myAttr" ;;
  write this (set_myAttr val) ;;
  ret this.

Definition getAttr (o : t) : string :=
  if truthy (of_option (myAttr o))
  then "[" +:+ default "" (myAttr o) +:+ "]" else "".

Definition pseudoClass (this : loc) (val : string) : M heap loc :=
  checkAfterElemsExist this "myPseudoClasses" ;;
  write this (push_myPseudoClasses val) ;;
  ret this.

Definition getPseudoClass (o : t) : string :=
  reduce (fun acc cl => acc +:+ ":" +:+ cl) "" (myPseudoClasses o).

Definition pseudoElement (this : loc) (val : string) : M heap loc :=
  o <- read this ;;
  if truthy (of_option (myPseudoElement o)) then throw DuplicateFragment else
  write this (set_myPseudoElement val) ;;
  ret this.

Definition getPseudoElement (o : t) : string :=
  if truthy (of_option (myPseudoElement o))
  then "::" +:+ default "" (myPseudoElement o) else "".

Definition class (this : loc) (val : string) : M heap loc :=
  checkAfterElemsExist this "myClasses" ;;
  write this (push_myClasses val) ;;
  ret this.

Definition getClass (o : t) : string :=
  reduce (fun acc cl => acc +:+ "." +:+ cl) "" (myClasses o).

(** The callback of the [reduce] in [stringify]; [res] is the text of the
    current item. *)
Definition join (acc res : string) : string :=
  (if negb (Nat.eqb (String.length acc) 0) then " " +:+ acc else "")
    +:+ " " +:+ res.

(** [stringify] only reads the store.  It recurses through the references
    kept in [subBuilders]; [fuel] bounds the depth of that recursion and
    [None] means that the bound was reached (or that a reference points
    outside the store). *)
Fixpoint stringify (fuel : nat) (h : heap) (this : loc) : option string :=
  match fuel with
  | 0 => None
  | Datatypes.S fuel' =>
      match h !! this with
      | None => None
      | Some o =>
          if negb (Nat.eqb (length (subBuilders o)) 0) then
            match reduce_opt
                    (fun acc it =>
                       match
                         match it with
                         | ISelector l => stringify fuel' h l
                         | IString s => Some s
                         end
                       with
                       | Some res => Some (join acc res)
                       | None => None
                       end)
                    "" (subBuilders o)
            with
            | Some result =>
                Some (trim (if String.eqb result "" then "" else result))
            | None => None
            end
          else
            Some (getElement o +:+ getId o +:+ getClass o +:+ getAttr o
                    +:+ getPseudoClass o +:+ getPseudoElement o)
      end
  end.

End MyCssSelector.

(** ** The facade *)

Module cssSelectorBuilder.
Import MyCssSelector.

Definition element (val : string) : M heap loc :=
  this <- new ;; MyCssSelector.element this val.

Definition id (val : string) : M heap loc :=
  this <- new ;; MyCssSelector.id this val.

Definition class (val : string) : M heap loc :=
  this <- new ;; MyCssSelector.class this val.

Definition attr (val : string) : M heap loc :=
  this <- new ;; MyCssSelector.attr this val.

Definition pseudoClass (val : string) : M heap loc :=
  this <- new ;; MyCssSelector.pseudoClass this val.

Definition pseudoElement (val : string) : M heap loc :=
  this <- new ;; MyCssSelector.pseudoElement this val.

Definition combine (selector1 : loc) (combinator : string) (selector2 : loc)
  : M heap loc :=
  this <- new ;; MyCssSelector.combine this selector1 combinator selector2.
End cssSelectorBuilder.

(** The text of the selector a chain of calls leaves in its result. *)
Definition text (fuel : nat) (m : M (list MyCssSelector.t) loc) : option string :=
  match m [] with
  | (h, Normal l) => MyCssSelector.stringify fuel h l
  | (_, Throw _) => None
  end.

(** ** White space at the ends of a text *)

(** A string that begins with a character that is not white space. *)
Definition starts_clean (s : string) : bool :=
  match s with
  | EmptyString => false
  | String c _ => negb (isWhiteSpace c)
  end.

(** A string that ends with a character that is not white space. *)
Fixpoint ends_clean (s : string) : bool :=
  match s with
  | EmptyString => false
  | String c EmptyString => negb (isWhiteSpace c)
  | String _ s' => ends_clean s'
  end.

(** ** Fragment kinds *)

(** The six fragment kinds, in canonical order. *)
Inductive kind := Element | Id | Class | Attr | PseudoClass | PseudoElement.

Definition rank (k : kind) : nat :=
  match k with
  | Element => 0 | Id => 1 | Class => 2
  | Attr => 3 | PseudoClass => 4 | PseudoElement => 5
  end.

(** The property that holds the fragments of a kind. *)
Definition kind_name (k : kind) : string :=
  match k with
  | Element => "myElement" | Id => "myId" | Class => "myClasses"
  | Attr => "myAttr" | PseudoClass => "myPseudoClasses"
  | PseudoElement => "myPseudoElement"
  end.

(** The fluent method of a kind. *)
Definition call (k : kind) : loc -> string -> M MyCssSelector.heap loc :=
  match k with
  | Element => MyCssSelector.element
  | Id => MyCssSelector.id
  | Class => MyCssSelector.class
  | Attr => MyCssSelector.attr
  | PseudoClass => MyCssSelector.pseudoClass
  | PseudoElement => MyCssSelector.pseudoElement
  end.

(** The facade entry point of a kind. *)
Definition facade (k : kind) : string -> M MyCssSelector.heap loc :=
  match k with
  | Element => cssSelectorBuilder.element
  | Id => cssSelectorBuilder.id
  | Class => cssSelectorBuilder.class
  | Attr => cssSelectorBuilder.attr
  | PseudoClass => cssSelectorBuilder.pseudoClass
  | PseudoElement => cssSelectorBuilder.pseudoElement
  end.

(** What the receiver holds for a kind, and the test that
    [checkAfterElemsExist] applies to it. *)
Definition stored (k : kind) (o : MyCssSelector.t) : value :=
  MyCssSelector.prop o (kind_name k).

Definition populated (k : kind) (o : MyCssSelector.t) : bool :=
  and_length (stored k o).

(** The update a successful call of a kind makes to its receiver. *)
Definition record (k : kind) (v : string) (o : MyCssSelector.t)
  : MyCssSelector.t :=
  match k with
  | Element => MyCssSelector.set_myElement v o
  | Id => MyCssSelector.set_myId v o
  | Class => MyCssSelector.push_myClasses v o
  | Attr => MyCssSelector.set_myAttr v o
  | PseudoClass => MyCssSelector.push_myPseudoClasses v o
  | PseudoElement => MyCssSelector.set_myPseudoElement v o
  end.

(** Some fragment that renders after [k] is populated. *)
Definition later_populated (k : kind) (o : MyCssSelector.t) : bool :=
  existsb (fun l => Nat.ltb (rank k) (rank l) && populated l o)
          [Element; Id; Class; Attr; PseudoClass; PseudoElement].

(** Element, id and pseudo-element are refused when already stored. *)
Definition guarded (k : kind) : bool :=
  match k with
  | Element | Id | PseudoElement => true
  | _ => false
  end.

(** ** Reading a selector *)

Section Reading.
Import MyCssSelector.

(** The text of one entry of [subBuilders]. *)
Definition item_text (fuel : nat) (h : heap) (it : item) : option string :=
  match it with
  | ISelector l => stringify fuel h l
  | IString s => Some s
  end.

Definition step (fuel : nat) (h : heap) (acc : string) (it : item)
  : option string :=
  match item_text fuel h it with
  | Some res => Some (join acc res)
  | None => None
  end.

Definition simple_text (o : t) : string :=
  getElement o +:+ getId o +:+ getClass o +:+ getAttr o
    +:+ getPseudoClass o +:+ getPseudoElement o.

(** [reaches h x y]: [stringify] of [x] may read the selector at [y]. *)
Inductive reaches (h : heap) : loc -> loc -> Prop :=
| reaches_here x : reaches h x x
| reaches_sub x y z o :
    h !! x = Some o -> In (ISelector z) (subBuilders o) ->
    reaches h z y -> reaches h x y.

(** A store without dangling references: what a program can build, which
    has no way to name a selector that does not exist yet. *)
Definition closed (h : heap) : Prop :=
  forall x o z,
    h !! x = Some o -> In (ISelector z) (subBuilders o) -> z < length h.

End Reading.

(** ** Building a simple selector in canonical order *)

(** The arguments of a chain of fragment calls in canonical order: an optional
    element, an optional id, classes, an optional attribute, pseudo-classes
    and an optional pseudo-element. *)
Record fragments := {
  f_element : option string;
  f_id : option string;
  f_classes : list string;
  f_attr : option string;
  f_pseudoClasses : list string;
  f_pseudoElement : option string
}.

Definition opt_call (k : kind) (this : loc) (v : option string)
  : M MyCssSelector.heap loc :=
  match v with
  | Some s => call k this s
  | None => ret this
  end.

Fixpoint each_call (k : kind) (this : loc) (vs : list string)
  : M MyCssSelector.heap loc :=
  match vs with
  | [] => ret this
  | v :: vs' => this' <- call k this v ;; each_call k this' vs'
  end.

(** The chain [new MyCssSelector().element(e).id(i).class(c1)...]: the facade
    makes the selector and the first call, the fluent methods the others. *)
Definition build (fs : fragments) : M MyCssSelector.heap loc :=
  this <- MyCssSelector.new ;;
  this <- opt_call Element this (f_element fs) ;;
  this <- opt_call Id this (f_id fs) ;;
  this <- each_call Class this (f_classes fs) ;;
  this <- opt_call Attr this (f_attr fs) ;;
  this <- each_call PseudoClass this (f_pseudoClasses fs) ;;
  opt_call PseudoElement this (f_pseudoElement fs).

(** The text of the specification: a fragment that was given contributes its
    text between its delimiters, an absent one the empty string. *)
Definition fragment_text (before after : string) (v : option string) : string :=
  match v with
  | Some s => before +:+ s +:+ after
  | None => ""
  end.

Definition each_text (before : string) (vs : list string) : string :=
  fold_right (fun v rest => before +:+ v +:+ rest) "" vs.

Definition canonical (fs : fragments) : string :=
  fragment_text "" "" (f_element fs)
    +:+ fragment_text "#" "" (f_id fs)
    +:+ each_text "." (f_classes fs)
    +:+ fragment_text "[" "]" (f_attr fs)
    +:+ each_text ":" (f_pseudoClasses fs)
    +:+ fragment_text "::" "" (f_pseudoElement fs).

(** The getters test their property for truth, and the empty string is
    falsy: an element, id, attribute or pseudo-element given as the empty
    string renders like one that was never given. *)
Definition nonempty (v : option string) : option string :=
  match v with
  | Some s => if String.eqb s "" then None else Some s
  | None => None
  end.

Definition effective (fs : fragments) : fragments :=
  {| f_element := nonempty (f_element fs);
     f_id := nonempty (f_id fs);
     f_classes := f_classes fs;
     f_attr := nonempty (f_attr fs);
     f_pseudoClasses := f_pseudoClasses fs;
     f_pseudoElement := nonempty (f_pseudoElement fs) |}.

(** The selector a chain leaves in the store. *)
Definition node_of (fs : fragments) : MyCssSelector.t :=
  MyCssSelector.mk (f_element fs) (f_id fs) (f_classes fs) (f_attr fs)
    (f_pseudoClasses fs) (f_pseudoElement fs) [].

(** ** Operations of a client, freshness and sharing *)

(** What a client can do: call the facade, or call a fluent method on a
    selector it holds. *)
Inductive op :=
| Facade (k : kind) (v : string)
| FacadeCombine (a : loc) (c : string) (b : loc)
| Fluent (k : kind) (l : loc) (v : string)
| FluentCombine (l a : loc) (c : string) (b : loc).

Definition run_op (p : op) : M MyCssSelector.heap loc :=
  match p with
  | Facade k v => facade k v
  | FacadeCombine a c b => cssSelectorBuilder.combine a c b
  | Fluent k l v => call k l v
  | FluentCombine l a c b => MyCssSelector.combine l a c b
  end.

(** The selector an operation works on: the new one for the facade, the
    receiver for a fluent method. *)
Definition receiver (p : op) (h : MyCssSelector.heap) : loc :=
  match p with
  | Facade _ _ | FacadeCombine _ _ _ => length h
  | Fluent _ l _ | FluentCombine l _ _ _ => l
  end.

Definition is_facade (p : op) : bool :=
  match p with
  | Facade _ _ | FacadeCombine _ _ _ => true
  | _ => false
  end.

Definition all_kinds : list kind :=
  [Element; Id; Class; Attr; PseudoClass; PseudoElement].

(** Some fragment property of the selector is populated. *)
Definition fragment_populated (o : MyCssSelector.t) : bool :=
  existsb (fun k => populated k o) all_kinds.

(** A simple selector has no sub-builders; a combinator node has no
    populated fragment. *)
Definition selector_invariant (o : MyCssSelector.t) : Prop :=
  MyCssSelector.subBuilders o = [] \/ fragment_populated o = false.

(** The fluent calls that keep the two kinds of node apart: a fragment
    method on a simple selector, [combine] on a selector without fragments. *)
Definition disciplined (p : op) (h : MyCssSelector.heap) : Prop :=
  match p with
  | Facade _ _ | FacadeCombine _ _ _ => True
  | Fluent _ l _ =>
      forall o, h !! l = Some o -> MyCssSelector.subBuilders o = []
  | FluentCombine l _ _ _ =>
      forall o, h !! l = Some o -> fragment_populated o = false
  end.

(** The stores a client can build with disciplined operations. *)
Inductive built : MyCssSelector.heap -> Prop :=
| built_empty : built []
| built_step h p h' res :
    built h -> disciplined p h -> run_op p h = (h', res) -> built h'.

(** ** JSON helpers *)

(** The values [JSON.parse] can return.  Arrays and objects carry their
    prototype: an object, compared by identity, or [null] ([None]). *)
Local Unset Elimination Schemes.
Inductive jsvalue (P : Type) :=
| JNull
| JBool (b : bool)
| JNumber (x : float)
| JString (s : string)
| JArray (proto : option P) (elems : list (jsvalue P))
| JObject (proto : option P) (fields : list (string * jsvalue P)).
Local Set Elimination Schemes.
Arguments JNull {P}.
Arguments JBool {P} b.
Arguments JNumber {P} x.
Arguments JString {P} s.
Arguments JArray {P} proto elems.
Arguments JObject {P} proto fields.

(** What a caller can pass as the prototype: an object, [null], or a value
    that is neither ([undefined], a boolean, a number, a string). *)
Inductive protoarg (P : Type) :=
| PObject (p : P)
| PNull
| PNotObject.
Arguments PObject {P} p.
Arguments PNull {P}.
Arguments PNotObject {P}.

Definition NotAnObject : exn :=
  Error "Object.setPrototypeOf called on null or undefined".

Definition BadPrototype : exn :=
  Error "Object prototype may only be an Object or null".

Definition with_prototype {P} (proto : option P) (o : jsvalue P) : jsvalue P :=
  match o with
  | JArray _ elems => JArray proto elems
  | JObject _ fields => JObject proto fields
  | _ => o
  end.

(** [Object.setPrototypeOf(o, proto)], in the order of its steps: [null] as
    [o] is refused; a [proto] that is neither an object nor [null] is
    refused; a primitive [o] is handed back as it is; an array or an object
    gets the prototype, in place, and is the result.  The last step cannot
    fail on the objects it meets here, which [JSON.parse] has just made:
    they are extensible and on no prototype chain. *)
Definition setPrototypeOf {P} (o : jsvalue P) (proto : protoarg P)
  : completion (jsvalue P) :=
  match o with
  | JNull => Throw NotAnObject
  | _ =>
      match proto with
      | PNotObject => Throw BadPrototype
      | PObject p => Normal (with_prototype (Some p) o)
      | PNull => Normal (with_prototype None o)
      end
  end.

Section JSON.
(** The two functions of the runtime that the helpers call:
    [JSON.stringify], which returns [undefined] for what it cannot
    serialise, and [JSON.parse], which raises [SyntaxError]. *)
Context {P : Type}.
Variable JSON_stringify : jsvalue P -> option string.
Variable JSON_parse : string -> completion (jsvalue P).

Definition getJSON (obj : jsvalue P) : option string := JSON_stringify obj.

Definition fromJSON (proto : protoarg P) (json : string)
  : completion (jsvalue P) :=
  match JSON_parse json with
  | Normal o =>
      match setPrototypeOf o proto with
      | Normal o' => Normal o'
      | Throw e => Throw e
      end
  | Throw e => Throw e
  end.
End JSON.

(** ** Chains of fluent calls *)

(** [this.k1(v1).k2(v2)...]: every fluent method returns its receiver, on
    which the next one is called; the first error ends the chain. *)
Fixpoint chain (this : loc) (cs : list (kind * string))
  : M MyCssSelector.heap loc :=
  match cs with
  | [] => ret this
  | (k, v) :: cs' => this' <- call k this v ;; chain this' cs'
  end.

(** [k] may be called right after [prev]: it renders later, or it is the
    same kind and that kind may repeat. *)
Definition follows (repeats : kind -> bool) (prev k : kind) : bool :=
  Nat.ltb (rank prev) (rank k) || (Nat.eqb (rank prev) (rank k) && repeats k).

Fixpoint in_order (repeats : kind -> bool) (prev : kind) (ks : list kind)
  : bool :=
  match ks with
  | [] => true
  | k :: ks' => follows repeats prev k && in_order repeats k ks'
  end.

Definition ordered_kinds (repeats : kind -> bool) (ks : list kind) : bool :=
  match ks with
  | [] => true
  | k :: ks' => in_order repeats k ks'
  end.

(** The order the methods enforce: kinds never go back, and element, id and
    pseudo-element come once. *)
Definition canonical_chain (cs : list (kind * string)) : bool :=
  ordered_kinds (fun k => negb (guarded k)) (map fst cs).

(** The kinds that keep every text they are given. *)
Definition accumulates (k : kind) : bool :=
  match k with
  | Class | PseudoClass => true
  | _ => false
  end.

(** The text one fragment adds to a selector. *)
Definition call_text (c : kind * string) : string :=
  match c with
  | (Element, v) => v
  | (Id, v) => "#" +:+ v
  | (Class, v) => "." +:+ v
  | (Attr, v) => "[" +:+ v +:+ "]"
  | (PseudoClass, v) => ":" +:+ v
  | (PseudoElement, v) => "::" +:+ v
  end.

Definition chain_text (cs : list (kind * string)) : string :=
  fold_right (fun c rest => call_text c +:+ rest) "" cs.

(** The state of a selector whose last populated kind is [B]. *)
Definition settled (B : kind) (o : MyCssSelector.t) : Prop :=
  populated B o = true /\ forall L, populated L o = true -> rank L <= rank B.

(** ** Stores made through the facade *)

Fixpoint spaces (n : nat) : string :=
  match n with
  | 0 => ""
  | Datatypes.S n' => String " " (spaces n')
  end.

(** Every reference of a selector points to a selector made before it. *)
Definition ordered (h : MyCssSelector.heap) : Prop :=
  forall x o z,
    h !! x = Some o -> In (ISelector z) (MyCssSelector.subBuilders o) -> z < x.

(** The operations of a client that combines through the facade only, where
    the two arguments of [combine] are selectors it already holds. *)
Definition through_facade (p : op) (h : MyCssSelector.heap) : Prop :=
  match p with
  | Facade _ _ | Fluent _ _ _ => True
  | FacadeCombine a _ b => a < length h /\ b < length h
  | FluentCombine _ _ _ _ => False
  end.

Inductive facade_built : MyCssSelector.heap -> Prop :=
| facade_built_empty : facade_built []
| facade_built_step h p h' res :
    facade_built h -> through_facade p h -> run_op p h = (h', res) ->
    facade_built h'.

(** * Properties *)

(** ** The examples of the task file *)

Module Examples.
Import MyCssSelector.

Example ex_id_classes :
  text 1 (a <- cssSelectorBuilder.id "main" ;;
          b <- class a "container" ;;
          class b "editable")
  = Some "#main.container.editable".
Proof. reflexivity. Qed.

Example ex_attr :
  let q := String (ascii_of_nat 34) "" in
  text 1 (a <- cssSelectorBuilder.element "a" ;;
          b <- attr a ("href$=" +:+ q +:+ ".png" +:+ q) ;;
          pseudoClass b "focus")
  = Some ("a[href$=" +:+ q +:+ ".png" +:+ q +:+ "]:focus").
Proof. reflexivity. Qed.

Example ex_combine :
  text 4 (a0 <- cssSelectorBuilder.element "div" ;;
          a1 <- id a0 "main" ;;
          a2 <- class a1 "container" ;;
          a <- class a2 "draggable" ;;
          b0 <- cssSelectorBuilder.element "table" ;;
          b <- id b0 "data" ;;
          c0 <- cssSelectorBuilder.element "tr" ;;
          c <- pseudoClass c0 "nth-of-type(even)" ;;
          d0 <- cssSelectorBuilder.element "td" ;;
          d <- pseudoClass d0 "nth-of-type(even)" ;;
          cd <- cssSelectorBuilder.combine c " " d ;;
          bcd <- cssSelectorBuilder.combine b "~" cd ;;
          cssSelectorBuilder.combine a "+" bcd)
  = Some "div#main.container.draggable + table#data ~ tr:nth-of-type(even)   td:nth-of-type(even)".
Proof. reflexivity. Qed.
End Examples.

(** ** Facts about strings *)

Section Strings.

Lemma app_String (c : ascii) (s t : string) :
  String c s +:+ t = String c (s +:+ t).
Proof. reflexivity. Qed.

Lemma app_empty_l (s : string) : "" +:+ s = s.
Proof. reflexivity. Qed.

Lemma app_empty_r (s : string) : s +:+ "" = s.
Proof. induction s as [|c s IH]; [reflexivity|]. by rewrite app_String, IH. Qed.

Lemma app_assoc_s (s t u : string) : (s +:+ t) +:+ u = s +:+ (t +:+ u).
Proof.
  induction s as [|c s IH]; [reflexivity|]. by rewrite !app_String, IH.
Qed.

Lemma eqb_empty (s : string) : String.eqb s "" = true <-> s = "".
Proof. apply String.eqb_eq. Qed.

Lemma length_zero (s : string) :
  Nat.eqb (String.length s) 0 = String.eqb s "".
Proof. by destruct s. Qed.

Lemma trimStart_clean (s : string) : starts_clean s = true -> trimStart s = s.
Proof.
  destruct s as [|c s]; [done|]. simpl. by destruct (isWhiteSpace c).
Qed.

Lemma trimStart_space (s : string) : trimStart (" " +:+ s) = trimStart s.
Proof. reflexivity. Qed.

Lemma ends_clean_nonempty (s : string) : ends_clean s = true -> s <> "".
Proof. by destruct s. Qed.

Lemma trimEnd_clean (s : string) : ends_clean s = true -> trimEnd s = s.
Proof.
  induction s as [|c s IH]; [done|]. intros H. simpl in *.
  destruct s as [|d s].
  - simpl. by destruct (isWhiteSpace c).
  - rewrite (IH H). done.
Qed.

Lemma ends_clean_app (s t : string) :
  ends_clean t = true -> ends_clean (s +:+ t) = true.
Proof.
  intros H. induction s as [|c s IH]; [done|].
  rewrite app_String. simpl. destruct (s +:+ t) eqn:E; [|done].
  destruct s; [|done]. rewrite app_empty_l in E. subst. done.
Qed.

Lemma starts_clean_app (s t : string) :
  starts_clean s = true -> starts_clean (s +:+ t) = true.
Proof. by destruct s. Qed.

(** [trim] removes exactly the three leading spaces that the [reduce] of
    [stringify] accumulates in front of a text with clean ends. *)
Lemma trim_clean (s : string) :
  starts_clean s = true -> ends_clean s = true -> trim s = s.
Proof.
  intros H1 H2. unfold trim. by rewrite trimStart_clean, trimEnd_clean.
Qed.

Lemma trim_spaces3 (s : string) :
  starts_clean s = true -> ends_clean s = true -> trim ("   " +:+ s) = s.
Proof.
  intros H1 H2. unfold trim.
  change ("   " +:+ s) with (" " +:+ " " +:+ " " +:+ s).
  rewrite !trimStart_space. by apply trim_clean.
Qed.

End Strings.

(** ** Running the methods *)

Section Run.
Import MyCssSelector.

Lemma and_length_truthy (v : value) :
  and_length v = match v with
                 | VUndefined => false
                 | VString s => negb (String.eqb s "")
                 | VArray a => negb (Nat.eqb (length a) 0)
                 end.
Proof.
  destruct v as [|s|a]; [done| |done].
  unfold and_length. simpl. rewrite length_zero. by destruct (String.eqb s "").
Qed.

Lemma run_read (h : heap) (l : loc) (o : t) :
  h !! l = Some o -> read l h = (h, Normal o).
Proof. intros H. unfold read. by rewrite H. Qed.

Lemma run_write (h : heap) (l : loc) (o : t) (f : t -> t) :
  h !! l = Some o -> write l f h = (<[l := f o]> h, Normal tt).
Proof. intros H. unfold write. by rewrite H. Qed.

(** The [find] of [checkAfterElemsExist] looks at the kinds after [k]. *)
Lemma find_later (p : string -> bool) (k : kind) :
  truthy (of_option
            (List.find p (slice (indexOf (kind_name k) order + 1)%Z order)))
  = existsb (fun l => Nat.ltb (rank k) (rank l) && p (kind_name l))
            [Element; Id; Class; Attr; PseudoClass; PseudoElement].
Proof.
  destruct k; vm_compute;
    repeat match goal with
           | |- context [p ?x] => destruct (p x)
           end; reflexivity.
Qed.

Lemma run_check (h : heap) (l : loc) (o : t) (k : kind) :
  h !! l = Some o ->
  checkAfterElemsExist l (kind_name k) h
  = (h, if later_populated k o then Throw OrderViolation else Normal tt).
Proof.
  intros H. unfold checkAfterElemsExist, bind. rewrite (run_read _ _ _ H).
  rewrite find_later. unfold later_populated, populated, stored.
  by destruct (existsb _ _).
Qed.

(** Every fluent fragment call, on a receiver that is in the store. *)
Lemma run_call (k : kind) (h : heap) (l : loc) (o : t) (v : string) :
  h !! l = Some o ->
  call k l v h =
    if later_populated k o then (h, Throw OrderViolation)
    else if guarded k && truthy (stored k o) then (h, Throw DuplicateFragment)
    else (<[l := record k v o]> h, Normal l).
Proof.
  intros H. pose proof (run_check h l o k H) as Hc.
  destruct k; simpl kind_name in Hc;
    unfold call, element, id, class, attr, pseudoClass, pseudoElement, bind;
    rewrite ?Hc;
    try (change (later_populated PseudoElement o) with false; cbv iota);
    try (destruct (later_populated _ o); [reflexivity|]);
    rewrite ?(run_read _ _ _ H); unfold stored, guarded, record, prop;
    simpl kind_name; cbn [String.eqb Ascii.eqb Bool.eqb andb];
    try (match goal with
         | |- context [truthy ?v] => destruct (truthy v); [reflexivity|]
         end);
    by rewrite (run_write _ _ _ _ H).
Qed.

(** A receiver that is not in the store. *)
Lemma run_call_dangling (k : kind) (h : heap) (l : loc) (v : string) :
  h !! l = None -> call k l v h = (h, Throw TypeError).
Proof.
  intros H.
  destruct k; unfold call, element, id, class, attr, pseudoClass,
    pseudoElement, checkAfterElemsExist, bind, read; by rewrite H.
Qed.

Lemma run_combine (h : heap) (l : loc) (o : t) (a b : loc) (c : string) :
  h !! l = Some o ->
  combine l a c b h
  = (<[l := push_subBuilders [ISelector a; IString c; ISelector b] o]> h,
     Normal l).
Proof. intros H. unfold combine, bind. by rewrite (run_write _ _ _ _ H). Qed.

Lemma lookup_last (h : heap) (o : t) : (h ++ [o]) !! length h = Some o.
Proof. by rewrite list_lookup_middle. Qed.

Lemma insert_last (h : heap) (o o' : t) :
  <[length h := o']> (h ++ [o]) = h ++ [o'].
Proof.
  rewrite insert_app_r_alt by lia. by rewrite Nat.sub_diag.
Qed.

End Run.

(** ** Facts about [stringify] *)

Section Stringify.
Import MyCssSelector.

Lemma stringify_S (fuel : nat) (h : heap) (l : loc) :
  stringify (Datatypes.S fuel) h l =
    match h !! l with
    | None => None
    | Some o =>
        if negb (Nat.eqb (length (subBuilders o)) 0) then
          match reduce_opt (step fuel h) "" (subBuilders o) with
          | Some result =>
              Some (trim (if String.eqb result "" then "" else result))
          | None => None
          end
        else Some (simple_text o)
    end.
Proof. reflexivity. Qed.

Lemma stringify_simple (fuel : nat) (h : heap) (l : loc) (o : t) :
  h !! l = Some o -> subBuilders o = [] ->
  stringify (Datatypes.S fuel) h l = Some (simple_text o).
Proof. intros H E. rewrite stringify_S, H, E. reflexivity. Qed.

Lemma reduce_opt_ext {A B} (f g : B -> A -> option B) (l : list A) :
  (forall acc x, In x l -> f acc x = g acc x) ->
  forall init, reduce_opt f init l = reduce_opt g init l.
Proof.
  induction l as [|x l IH]; intros E init; [reflexivity|].
  simpl. rewrite <- (E init x) by (by left).
  destruct (f init x); [|reflexivity].
  apply IH. intros acc y Hy. apply E. by right.
Qed.

Lemma reduce_opt_mono {A B} (f g : B -> A -> option B) (l : list A) :
  (forall acc x r, f acc x = Some r -> g acc x = Some r) ->
  forall init r,
    reduce_opt f init l = Some r -> reduce_opt g init l = Some r.
Proof.
  intros E. induction l as [|x l IH]; intros init r; [done|].
  simpl. destruct (f init x) as [acc|] eqn:F; [|done].
  rewrite (E _ _ _ F). apply IH.
Qed.

Lemma step_mono (n m : nat) (h h' : heap) :
  (forall l s, stringify n h l = Some s -> stringify m h' l = Some s) ->
  forall acc it r, step n h acc it = Some r -> step m h' acc it = Some r.
Proof.
  intros E acc [l|s] r; unfold step; simpl; [|done].
  destruct (stringify n h l) as [res|] eqn:F; [|done].
  by rewrite (E _ _ F).
Qed.

(** More fuel never changes a result. *)
Lemma stringify_fuel (n m : nat) (h : heap) (l : loc) (s : string) :
  n <= m -> stringify n h l = Some s -> stringify m h l = Some s.
Proof.
  revert m l s. induction n as [|n IH]; intros m l s Hle; [done|].
  destruct m as [|m]; [lia|]. rewrite !stringify_S.
  destruct (h !! l) as [o|]; [|done].
  destruct (negb _); [|done].
  destruct (reduce_opt (step n h) "" (subBuilders o)) as [r|] eqn:R; [|done].
  intros Hs.
  rewrite (reduce_opt_mono _ (step m h) _
             (step_mono n m h h (fun l s => IH m l s ltac:(lia))) _ _ R).
  done.
Qed.

(** Allocation never changes the text of the selectors already there. *)
Lemma stringify_app (n : nat) (h h2 : heap) (l : loc) (s : string) :
  stringify n h l = Some s -> stringify n (h ++ h2) l = Some s.
Proof.
  revert l s. induction n as [|n IH]; intros l s; [done|].
  rewrite !stringify_S.
  destruct (h !! l) as [o|] eqn:L; [|done].
  rewrite (lookup_app_l_Some _ _ _ _ L).
  destruct (negb _); [|done].
  destruct (reduce_opt (step n h) "" (subBuilders o)) as [r|] eqn:R; [|done].
  intros Hs.
  rewrite (reduce_opt_mono _ (step n (h ++ h2)) _
             (step_mono n n h (h ++ h2) IH) _ _ R).
  done.
Qed.

(** The text of a selector depends only on the selectors it reaches. *)
Lemma stringify_frame (n : nat) (h h' : heap) (x : loc) :
  (forall y, reaches h x y -> h' !! y = h !! y) ->
  stringify n h' x = stringify n h x.
Proof.
  revert x. induction n as [|n IH]; intros x E; [reflexivity|].
  rewrite !stringify_S, (E x (reaches_here h x)).
  destruct (h !! x) as [o|] eqn:L; [|reflexivity].
  rewrite (reduce_opt_ext (step n h') (step n h)); [reflexivity|].
  intros acc [z|s] Hin; unfold step; simpl; [|reflexivity].
  rewrite (IH z); [reflexivity|].
  intros y Hy. apply E. by eapply reaches_sub.
Qed.

Lemma join_first (res : string) : join "" res = " " +:+ res.
Proof. reflexivity. Qed.

Lemma join_next (c : ascii) (acc res : string) :
  join (String c acc) res = " " +:+ String c acc +:+ " " +:+ res.
Proof. unfold join. simpl. by rewrite app_assoc_s. Qed.

(** A selector made by one [combine]: the [reduce] puts three spaces in
    front of the chain and [trim] takes the white space at both ends away. *)
Lemma stringify_triple (n : nat) (h : heap) (r a b : loc) (c sa sb : string)
    (o : t) :
  h !! r = Some o ->
  subBuilders o = [ISelector a; IString c; ISelector b] ->
  stringify n h a = Some sa -> stringify n h b = Some sb ->
  stringify (Datatypes.S n) h r
  = Some (trim ("   " +:+ sa +:+ " " +:+ c +:+ " " +:+ sb)).
Proof.
  intros L E Ha Hb. rewrite stringify_S, L, E.
  cbn [reduce_opt length Nat.eqb negb].
  assert (Sa : forall acc, step n h acc (ISelector a) = Some (join acc sa))
    by (intros acc; unfold step; simpl; by rewrite Ha).
  assert (Sb : forall acc, step n h acc (ISelector b) = Some (join acc sb))
    by (intros acc; unfold step; simpl; by rewrite Hb).
  assert (Sc : forall acc, step n h acc (IString c) = Some (join acc c))
    by reflexivity.
  rewrite Sa, Sc, Sb, join_first.
  change (" " +:+ sa) with (String " " sa). rewrite join_next.
  change (" " +:+ String " " sa +:+ " " +:+ c)
    with (String " " (String " " sa +:+ " " +:+ c)).
  rewrite join_next. cbn [String.eqb]. do 2 f_equal.
  change (String " " (String " " sa +:+ " " +:+ c))
    with ("  " +:+ sa +:+ " " +:+ c).
  change ("   " +:+ sa +:+ " " +:+ c +:+ " " +:+ sb)
    with (" " +:+ "  " +:+ sa +:+ " " +:+ c +:+ " " +:+ sb).
  f_equal. by rewrite !app_assoc_s.
Qed.

End Stringify.

(** ** Building a simple selector *)

Section Build.
Import MyCssSelector.

Lemma opt_call_last (k : kind) (h : heap) (o : t) (v : option string) :
  later_populated k o = false ->
  guarded k && truthy (stored k o) = false ->
  opt_call k (length h) v (h ++ [o])
  = (h ++ [match v with Some s => record k s o | None => o end],
     Normal (length h)).
Proof.
  intros H1 H2. destruct v as [s|]; [|reflexivity]. simpl.
  by rewrite (run_call k _ _ o s (lookup_last h o)), H1, H2, insert_last.
Qed.

Lemma each_call_last (k : kind) (vs : list string) :
  guarded k = false ->
  (forall v o, later_populated k (record k v o) = later_populated k o) ->
  forall (h : heap) (o : t),
    later_populated k o = false ->
    each_call k (length h) vs (h ++ [o])
    = (h ++ [fold_left (fun o v => record k v o) vs o], Normal (length h)).
Proof.
  intros G P. induction vs as [|v vs IH]; intros h o H; [reflexivity|].
  simpl. unfold bind.
  rewrite (run_call k _ _ o v (lookup_last h o)), H, G, insert_last. simpl.
  apply IH. by rewrite P.
Qed.

Lemma push_classes_all (vs : list string) (o : t) :
  fold_left (fun o v => record Class v o) vs o
  = mk (myElement o) (myId o) (myClasses o ++ vs) (myAttr o)
       (myPseudoClasses o) (myPseudoElement o) (subBuilders o).
Proof.
  revert o. induction vs as [|v vs IH]; intros o; simpl.
  - rewrite app_nil_r. by destruct o.
  - rewrite IH. simpl. by rewrite <- app_assoc.
Qed.

Lemma push_pseudoClasses_all (vs : list string) (o : t) :
  fold_left (fun o v => record PseudoClass v o) vs o
  = mk (myElement o) (myId o) (myClasses o) (myAttr o)
       (myPseudoClasses o ++ vs) (myPseudoElement o) (subBuilders o).
Proof.
  revert o. induction vs as [|v vs IH]; intros o; simpl.
  - rewrite app_nil_r. by destruct o.
  - rewrite IH. simpl. by rewrite <- app_assoc.
Qed.

(** The [reduce] of [getClass] and [getPseudoClass]. *)
Lemma reduce_each_text (before : string) (vs : list string) (init : string) :
  reduce (fun acc cl => acc +:+ before +:+ cl) init vs
  = init +:+ each_text before vs.
Proof.
  unfold reduce. revert init.
  induction vs as [|v vs IH]; intros init; simpl.
  - by rewrite app_empty_r.
  - by rewrite IH, !app_assoc_s.
Qed.

Lemma text_of_option (before after : string) (v : option string) :
  (if truthy (of_option v) then before +:+ default "" v +:+ after else "")
  = fragment_text before after (nonempty v).
Proof.
  destruct v as [s|]; [|reflexivity]. simpl. by destruct (String.eqb s "").
Qed.

Lemma simple_text_node_of (fs : fragments) :
  simple_text (node_of fs) = canonical (effective fs).
Proof.
  unfold simple_text, canonical, getElement, getId, getClass, getAttr,
    getPseudoClass, getPseudoElement.
  rewrite !reduce_each_text. simpl.
  rewrite <- !text_of_option, !app_empty_l, !app_empty_r.
  reflexivity.
Qed.

(** Without empty texts the chain renders as the specification words it. *)
Lemma effective_nonempty (fs : fragments) :
  f_element fs <> Some "" -> f_id fs <> Some "" ->
  f_attr fs <> Some "" -> f_pseudoElement fs <> Some "" ->
  effective fs = fs.
Proof.
  assert (N : forall v, v <> Some "" -> nonempty v = v).
  { intros [s|] H; [|done]. simpl.
    destruct (String.eqb_spec s ""); [by subst|done]. }
  destruct fs as [e i cs a ps pe]. unfold effective. simpl.
  intros He Hi Ha Hpe. by rewrite !N.
Qed.

Lemma build_run (fs : fragments) (h : heap) :
  build fs h = (h ++ [node_of fs], Normal (length h)).
Proof.
  destruct fs as [e i cs a ps pe]. unfold build, bind, new, node_of. simpl.
  rewrite opt_call_last by reflexivity.
  rewrite opt_call_last by (by destruct e).
  rewrite each_call_last; [|reflexivity|by intros ? []|by destruct e, i].
  rewrite push_classes_all.
  rewrite opt_call_last by (by destruct e, i).
  rewrite each_call_last; [|reflexivity|by intros ? []|by destruct e, i, a].
  rewrite push_pseudoClasses_all.
  rewrite opt_call_last by (by destruct e, i, a).
  by destruct e, i, a, pe.
Qed.

End Build.

(** ** Rendering a simple selector *)

Section Rendering.
Import MyCssSelector.

(** C1, as the code has it: for every chain of fragment calls in canonical
    order (element, id, classes, attribute, pseudo-classes, pseudo-element,
    each step optional) on a new selector, every call succeeds and
    [stringify] returns the concatenation, in that order and without
    separators, of the element text, [#id], [.class] for each class,
    [[attribute]], [:pseudoClass] for each pseudo-class and
    [::pseudoElement], where an element, id, attribute or pseudo-element
    whose text is the empty string contributes nothing, like an absent
    one. *)
Theorem stringify_canonical_order (fs : fragments) (h : heap) :
  exists h',
    build fs h = (h', Normal (length h)) /\
    forall fuel,
      stringify (Datatypes.S fuel) h' (length h)
      = Some (canonical (effective fs)).
Proof.
  exists (h ++ [node_of fs]). split; [apply build_run|].
  intros fuel.
  rewrite (stringify_simple fuel _ _ _ (lookup_last h (node_of fs)) eq_refl).
  by rewrite simple_text_node_of.
Qed.

(** C1 fails as stated at [cssSelectorBuilder.id('')]: the chain is in
    canonical order and the text of the claim is ["#"], but [getId] tests
    [this.myId] for truth and [stringify] returns the empty string. *)
Lemma stringify_empty_id_counterexample :
  let fs := {| f_element := None; f_id := Some ""; f_classes := [];
               f_attr := None; f_pseudoClasses := [];
               f_pseudoElement := None |} in
  exists h',
    cssSelectorBuilder.id "" [] = (h', Normal 0) /\
    build fs [] = (h', Normal 0) /\
    stringify 1 h' 0 = Some "" /\
    canonical fs = "#".
Proof. eexists. repeat split; reflexivity. Qed.

End Rendering.

(** ** Combined selectors *)

Section Combine.
Import MyCssSelector.

(** What [cssSelectorBuilder.combine] does to the store. *)
Lemma facade_combine_run (h : heap) (a b : loc) (c : string) :
  cssSelectorBuilder.combine a c b h
  = (h ++ [mk None None [] None [] None
             [ISelector a; IString c; ISelector b]],
     Normal (length h)).
Proof.
  unfold cssSelectorBuilder.combine, bind, new.
  by rewrite (run_combine _ _ _ a b c (lookup_last h _)), insert_last.
Qed.

(** The text of a combined selector, before any assumption on its parts. *)
Lemma combine_text (h h' : heap) (a b r : loc) (c sa sb : string)
    (na nb : nat) :
  stringify na h a = Some sa -> stringify nb h b = Some sb ->
  cssSelectorBuilder.combine a c b h = (h', Normal r) ->
  stringify na h' a = Some sa /\ stringify nb h' b = Some sb /\
  stringify (Datatypes.S (Nat.max na nb)) h' r
  = Some (trim ("   " +:+ sa +:+ " " +:+ c +:+ " " +:+ sb)).
Proof.
  intros Ha Hb. rewrite facade_combine_run. intros [= <- <-].
  split; [by apply stringify_app|]. split; [by apply stringify_app|].
  eapply stringify_triple.
  - apply lookup_last.
  - reflexivity.
  - apply stringify_app. eapply stringify_fuel; [|exact Ha]. lia.
  - apply stringify_app. eapply stringify_fuel; [|exact Hb]. lia.
Qed.

Lemma chain_clean (sa c sb : string) :
  starts_clean sa = true -> ends_clean sb = true ->
  starts_clean (sa +:+ " " +:+ c +:+ " " +:+ sb) = true /\
  ends_clean (sa +:+ " " +:+ c +:+ " " +:+ sb) = true.
Proof.
  intros H1 H2. split; [by apply starts_clean_app|].
  by do 4 apply ends_clean_app.
Qed.

(** C2, as the code has it: [stringify] of [combine(a, c, b)] is
    [a.stringify() + ' ' + c + ' ' + b.stringify()] behind three spaces,
    with the white space at both ends trimmed away.  When the text of [a]
    begins and the text of [b] ends with a character that is not white
    space, it is exactly [a.stringify() + ' ' + c + ' ' + b.stringify()],
    for every combinator [c], and then, when the text of [d] ends with
    such a character too, [combine(combine(a, c, b), c', d)] renders as the
    flat chain of the texts of [a], [b] and [d] with [' ' + c + ' '] and
    [' ' + c' + ' '] between them: [" ~ "] and three spaces for
    [c = '~'] and [c' = ' ']. *)
Theorem combine_stringify (h h' : heap) (a b r : loc) (c sa sb : string)
    (na nb : nat) :
  stringify na h a = Some sa -> stringify nb h b = Some sb ->
  cssSelectorBuilder.combine a c b h = (h', Normal r) ->
  stringify na h' a = Some sa /\ stringify nb h' b = Some sb /\
  stringify (Datatypes.S (Nat.max na nb)) h' r
  = Some (trim ("   " +:+ sa +:+ " " +:+ c +:+ " " +:+ sb)) /\
  (starts_clean sa = true -> ends_clean sb = true ->
   stringify (Datatypes.S (Nat.max na nb)) h' r
   = Some (sa +:+ " " +:+ c +:+ " " +:+ sb) /\
   forall (d : loc) (nd : nat) (c' sd : string) (h'' : heap) (r' : loc),
     stringify nd h' d = Some sd -> ends_clean sd = true ->
     cssSelectorBuilder.combine r c' d h' = (h'', Normal r') ->
     stringify (Datatypes.S (Nat.max (Datatypes.S (Nat.max na nb)) nd)) h'' r'
     = Some (sa +:+ " " +:+ c +:+ " " +:+ sb +:+ " " +:+ c' +:+ " " +:+ sd)).
Proof.
  intros Ha Hb Hc.
  destruct (combine_text _ _ _ _ _ _ _ _ _ _ Ha Hb Hc) as (Ha' & Hb' & Hr).
  repeat (split; [assumption|]).
  intros Ca Cb. destruct (chain_clean sa c sb Ca Cb) as [C1 C2].
  assert (Hr' : stringify (Datatypes.S (Nat.max na nb)) h' r
                = Some (sa +:+ " " +:+ c +:+ " " +:+ sb))
    by (by rewrite Hr, trim_spaces3).
  split; [exact Hr'|].
  intros d nd c' sd h'' r' Hd Cd Hc'.
  destruct (combine_text _ _ _ _ _ _ _ _ _ _ Hr' Hd Hc') as (_ & _ & Hr'').
  rewrite Hr''. f_equal.
  destruct (chain_clean (sa +:+ " " +:+ c +:+ " " +:+ sb) c' sd C1 Cd)
    as [D1 D2].
  rewrite trim_spaces3 by assumption.
  by rewrite !app_assoc_s.
Qed.

(** [combine(div, '~', p)], and [' '] then [span] after it. *)
Lemma combine_stringify_witness :
  let h := [mk (Some "div") None [] None [] None [];
            mk (Some "p") None [] None [] None [];
            mk (Some "span") None [] None [] None []] in
  let h' := h ++ [mk None None [] None [] None
                    [ISelector 0; IString "~"; ISelector 1]] in
  let h'' := h' ++ [mk None None [] None [] None
                      [ISelector 3; IString " "; ISelector 2]] in
  stringify 2 h' 3 = Some "div ~ p" /\
  stringify 3 h'' 4 = Some "div ~ p   span".
Proof.
  intros h h' h''.
  destruct (combine_stringify h h' 0 1 3 "~" "div" "p" 1 1
              eq_refl eq_refl eq_refl) as (_ & _ & _ & H).
  destruct (H eq_refl eq_refl) as [H1 H2].
  split; [exact H1|].
  exact (H2 2 1 " " "span" h'' 4 eq_refl eq_refl eq_refl).
Defined.

(** C2 fails as stated at [combine(element('a'), '+', element(''))]: the
    claim gives ["a + "] and [stringify], which ends in [trim], gives
    ["a +"]. *)
Lemma combine_stringify_counterexample :
  exists h,
    (a <- cssSelectorBuilder.element "a" ;;
     b <- cssSelectorBuilder.element "" ;;
     cssSelectorBuilder.combine a "+" b) [] = (h, Normal 2) /\
    stringify 2 h 0 = Some "a" /\
    stringify 2 h 1 = Some "" /\
    stringify 2 h 2 = Some "a +" /\
    "a +" <> "a" +:+ " " +:+ "+" +:+ " " +:+ "".
Proof. eexists. repeat split; try reflexivity. discriminate. Qed.

End Combine.

(** ** Order and duplicate errors *)

Section Errors.
Import MyCssSelector.

Lemma later_populated_true (k l : kind) (o : t) :
  rank k < rank l -> populated l o = true -> later_populated k o = true.
Proof.
  intros Hlt Hp. unfold later_populated. apply existsb_exists.
  exists l. split; [destruct l; simpl; tauto|].
  rewrite Hp, andb_true_r. by apply Nat.ltb_lt.
Qed.

(** C3, as the code has it: when a fragment of kind [L] is populated on a
    selector (a class or a pseudo-class was added, or the stored id,
    attribute or pseudo-element text is not the empty string), the method
    of every kind [K] that precedes [L] in the canonical order raises the
    order error, whatever value is passed, and leaves the store alone. *)
Theorem earlier_after_later_raises (h : heap) (l : loc) (o : t)
    (K L : kind) (v : string) :
  h !! l = Some o -> rank K < rank L -> populated L o = true ->
  call K l v h = (h, Throw OrderViolation).
Proof.
  intros H Hlt Hp.
  by rewrite (run_call K h l o v H), (later_populated_true K L o Hlt Hp).
Qed.

Lemma earlier_after_later_raises_witness :
  call Element 0 "div" [mk None (Some "main") [] None [] None []]
  = ([mk None (Some "main") [] None [] None []], Throw OrderViolation).
Proof.
  apply earlier_after_later_raises
    with (o := mk None (Some "main") [] None [] None []) (L := Id);
    [reflexivity | simpl; lia | reflexivity].
Defined.

(** C3 fails as stated at [cssSelectorBuilder.id('').element('div')]: the
    id was set, to the empty string, and the call of [element] after it
    returns normally, because [checkAfterElemsExist] tests the stored value
    for truth. *)
Lemma earlier_after_later_counterexample :
  let h := [mk None (Some "") [] None [] None []] in
  cssSelectorBuilder.id "" [] = (h, Normal 0) /\
  rank Element < rank Id /\
  stored Id (mk None (Some "") [] None [] None []) = VString "" /\
  call Element 0 "div" h
  = ([mk (Some "div") (Some "") [] None [] None []], Normal 0).
Proof. repeat split; try reflexivity. simpl. lia. Qed.

(** C4, as the code has it: on a selector whose stored element (id,
    pseudo-element) text is not the empty string, and on which no fragment
    of a later kind is populated, a further call of [element] ([id],
    [pseudoElement]) raises the duplicate error, whatever value is passed,
    and leaves the store alone. *)
Theorem second_call_raises_duplicate (h : heap) (l : loc) (o : t)
    (K : kind) (s v : string) :
  h !! l = Some o -> guarded K = true ->
  stored K o = VString s -> s <> "" -> later_populated K o = false ->
  call K l v h = (h, Throw DuplicateFragment).
Proof.
  intros H G Hs Hne Hl.
  rewrite (run_call K h l o v H), Hl, G, Hs. simpl.
  by destruct (String.eqb_spec s "").
Qed.

Lemma second_call_raises_duplicate_witness :
  call PseudoElement 0 "after"
    [mk (Some "p") None [] None [] (Some "before") []]
  = ([mk (Some "p") None [] None [] (Some "before") []],
     Throw DuplicateFragment).
Proof.
  apply second_call_raises_duplicate
    with (o := mk (Some "p") None [] None [] (Some "before") [])
         (s := "before");
    [reflexivity | reflexivity | reflexivity | discriminate | reflexivity].
Defined.

(** C4 fails as stated at [cssSelectorBuilder.element('').element('b')],
    where the second call returns normally, and at
    [cssSelectorBuilder.element('a').id('x').element('b')], where the
    second call of [element] raises the order error: the order check comes
    before the duplicate check. *)
Lemma second_call_counterexample :
  (a <- cssSelectorBuilder.element "" ;; element a "b") []
  = ([mk (Some "b") None [] None [] None []], Normal 0) /\
  (a <- cssSelectorBuilder.element "a" ;; b <- id a "x" ;; element b "b") []
  = ([mk (Some "a") (Some "x") [] None [] None []], Throw OrderViolation) /\
  OrderViolation <> DuplicateFragment.
Proof. repeat split; try reflexivity. discriminate. Qed.

(** C6: a fragment call that raises an error leaves the store, and so its
    receiver, exactly as it was before the call. *)
Theorem fragment_call_all_or_nothing (K : kind) (l : loc) (v : string)
    (h h' : heap) (e : exn) :
  call K l v h = (h', Throw e) -> h' = h.
Proof.
  destruct (h !! l) as [o|] eqn:H.
  - rewrite (run_call K h l o v H).
    destruct (later_populated K o); [by intros [= <- _]|].
    destruct (guarded K && truthy (stored K o)); [by intros [= <- _]|].
    discriminate.
  - rewrite (run_call_dangling K h l v H). by intros [= <- _].
Qed.

Lemma fragment_call_all_or_nothing_witness :
  let h := [mk (Some "a") (Some "x") [] None [] None []] in
  exists h', call Element 0 "b" h = (h', Throw OrderViolation) /\ h' = h.
Proof.
  intros h. exists h. split; [reflexivity|].
  apply fragment_call_all_or_nothing
    with (K := Element) (l := 0) (v := "b") (e := OrderViolation).
  reflexivity.
Defined.

(** C10, as the code has it: [attr] has no duplicate check.  On a selector
    with no pseudo-class and no pseudo-element populated, a call of [attr]
    returns normally, whatever attribute is stored already, and replaces
    the stored text; a simple selector then renders the new text between
    brackets (nothing when it is the empty string) and no trace of the old
    one. *)
Theorem attr_overwrites (h : heap) (l : loc) (o : t) (v : string) :
  h !! l = Some o ->
  populated PseudoClass o = false -> populated PseudoElement o = false ->
  attr l v h = (<[l := set_myAttr v o]> h, Normal l) /\
  (subBuilders o = [] ->
   forall fuel,
     stringify (Datatypes.S fuel) (<[l := set_myAttr v o]> h) l
     = Some (getElement o +:+ getId o +:+ getClass o
               +:+ fragment_text "[" "]" (nonempty (Some v))
               +:+ getPseudoClass o +:+ getPseudoElement o)).
Proof.
  intros H P1 P2. split.
  - change (attr l v h) with (call Attr l v h).
    rewrite (run_call Attr h l o v H).
    unfold later_populated. simpl. by rewrite P1, P2.
  - intros E fuel.
    rewrite (stringify_simple fuel _ l (set_myAttr v o)); [|
      apply list_lookup_insert_eq; by eapply lookup_lt_Some | exact E].
    unfold simple_text. do 4 f_equal.
    unfold getAttr. simpl. by destruct (String.eqb v "").
Qed.

Lemma attr_overwrites_witness :
  attr 0 "href" [mk (Some "a") None [] (Some "title") [] None []]
  = ([mk (Some "a") None [] (Some "href") [] None []], Normal 0) /\
  stringify 1 [mk (Some "a") None [] (Some "href") [] None []] 0
  = Some "a[href]".
Proof.
  destruct (attr_overwrites
              [mk (Some "a") None [] (Some "title") [] None []] 0
              (mk (Some "a") None [] (Some "title") [] None []) "href"
              eq_refl eq_refl eq_refl) as [H1 H2].
  split; [exact H1|]. exact (H2 eq_refl 0).
Defined.

(** C10 fails as stated at
    [cssSelectorBuilder.attr('a').pseudoClass('hover').attr('b')]: the
    second call of [attr] raises the order error. *)
Lemma attr_second_call_counterexample :
  (a <- cssSelectorBuilder.attr "a" ;;
   b <- pseudoClass a "hover" ;;
   attr b "b") []
  = ([mk None None [] (Some "a") ["hover"] None []], Throw OrderViolation).
Proof. reflexivity. Qed.

End Errors.

(** ** Operations of a client *)

Section Operations.
Import MyCssSelector.

Lemma facade_run (k : kind) (v : string) (h : heap) :
  facade k v h = (h ++ [record k v initial], Normal (length h)).
Proof.
  assert (E : facade k v
              = (fun h => match new h with
                          | (h1, Normal this) => call k this v h1
                          | (h1, Throw e) => (h1, Throw e)
                          end)) by (by destruct k).
  rewrite E. unfold new.
  rewrite (run_call k _ _ initial v (lookup_last h initial)), insert_last.
  by destruct k.
Qed.

Lemma subBuilders_record (k : kind) (v : string) (o : t) :
  subBuilders (record k v o) = subBuilders o.
Proof. by destruct k. Qed.

Lemma fragment_populated_push (l : list item) (o : t) :
  fragment_populated (push_subBuilders l o) = fragment_populated o.
Proof. reflexivity. Qed.

Lemma lookup_snoc_ne (h : heap) (o : t) (y : loc) :
  y <> length h -> (h ++ [o]) !! y = h !! y.
Proof.
  intros Hy. destruct (decide (y < length h)) as [Hlt|Hge].
  - by apply lookup_app_l.
  - rewrite (lookup_ge_None_2 h) by lia.
    apply lookup_ge_None_2. rewrite length_app. simpl. lia.
Qed.

(** An operation changes no selector but the one it works on. *)
Lemma run_op_others (p : op) (h h' : heap) (res : completion loc) (y : loc) :
  run_op p h = (h', res) -> y <> receiver p h -> h' !! y = h !! y.
Proof.
  destruct p as [k v|a c b|k l v|l a c b]; simpl.
  - rewrite facade_run. intros [= <- _] Hy. by apply lookup_snoc_ne.
  - rewrite facade_combine_run. intros [= <- _] Hy. by apply lookup_snoc_ne.
  - destruct (h !! l) as [o|] eqn:H.
    + rewrite (run_call k h l o v H).
      destruct (later_populated k o); [by intros [= <- _]|].
      destruct (guarded k && truthy (stored k o)); [by intros [= <- _]|].
      intros [= <- _] Hy. by apply list_lookup_insert_ne.
    + rewrite (run_call_dangling k h l v H). by intros [= <- _].
  - destruct (h !! l) as [o|] eqn:H.
    + rewrite (run_combine h l o a b c H).
      intros [= <- _] Hy. by apply list_lookup_insert_ne.
    + unfold combine, bind, write. rewrite H. by intros [= <- _].
Qed.

Lemma reaches_closed (h : heap) (x y : loc) :
  closed h -> reaches h x y -> x < length h -> y < length h.
Proof.
  intros C R. induction R as [x|x y z o L I R IH]; [done|].
  intros _. apply IH. by eapply C.
Qed.

(** In a store without dangling references no selector reaches the location
    of the next allocation: a facade call changes no selector at all. *)
Lemma fresh_not_reached (h : heap) (x : loc) :
  closed h -> x < length h -> ~ reaches h x (length h).
Proof.
  intros C Hx R. pose proof (reaches_closed h x _ C R Hx). lia.
Qed.

(** C7, as the code has it: every facade call returns a selector at a
    location that was not in the store before; the selector [combine]
    returns keeps references to its two arguments.  An operation, facade
    call or fluent call, changes the fields of no selector but the one it
    works on, and it does not change the [stringify] text of a selector that
    does not reach that one through sub-builders. *)
Theorem operation_frame (p : op) (h h' : heap) (res : completion loc) :
  run_op p h = (h', res) ->
  (forall x, x <> receiver p h -> h' !! x = h !! x) /\
  (forall x, ~ reaches h x (receiver p h) ->
     forall fuel, stringify fuel h' x = stringify fuel h x) /\
  (is_facade p = true ->
   res = Normal (length h) /\ h !! length h = None /\
   is_Some (h' !! length h) /\
   forall a c b, p = FacadeCombine a c b ->
     subBuilders <$> h' !! length h
     = Some [ISelector a; IString c; ISelector b]).
Proof.
  intros Hrun.
  split; [intros x; by apply (run_op_others p h h' res x)|].
  split.
  { intros x Hx fuel. apply stringify_frame. intros y Hy.
    apply (run_op_others p h h' res y Hrun). intros ->. by apply Hx. }
  intros F. destruct p as [k v|a c b|k l v|l a c b]; try discriminate;
    simpl in Hrun.
  - rewrite facade_run in Hrun. injection Hrun as <- <-.
    repeat split; [by apply lookup_ge_None_2| |discriminate].
    rewrite lookup_last. by eexists.
  - rewrite facade_combine_run in Hrun. injection Hrun as <- <-.
    repeat split; [by apply lookup_ge_None_2| |].
    + rewrite lookup_last. by eexists.
    + intros a' c' b' [= <- <- <-]. by rewrite lookup_last.
Qed.

(** A call of [class] on a [div] leaves a [p] made earlier alone, and
    [combine] on the two makes a third selector that refers to them. *)
Lemma operation_frame_witness :
  let h := [mk (Some "div") None [] None [] None [];
            mk (Some "p") None [] None [] None []] in
  let h1 := [mk (Some "div") None ["x"] None [] None [];
             mk (Some "p") None [] None [] None []] in
  let h2 := h1 ++ [mk None None [] None [] None
                     [ISelector 0; IString "+"; ISelector 1]] in
  (h1 !! 1 = h !! 1 /\
   forall fuel, stringify fuel h1 1 = stringify fuel h 1) /\
  (h1 !! 2 = None /\
   subBuilders <$> h2 !! 2 = Some [ISelector 0; IString "+"; ISelector 1]).
Proof.
  intros h h1 h2. split.
  - destruct (operation_frame (Fluent Class 0 "x") h h1 (Normal 0) eq_refl)
      as (H1 & H2 & _).
    split; [apply H1; discriminate|]. apply H2.
    intros R. inversion R as [|x y z o L I R']; subst.
    injection L as <-. destruct I.
  - destruct (operation_frame (FacadeCombine 0 "+" 1) h1 h2 (Normal 2) eq_refl)
      as (_ & _ & H3).
    destruct (H3 eq_refl) as (_ & H4 & _ & H5).
    split; [exact H4|]. exact (H5 0 "+" 1 eq_refl).
Defined.

(** C7 fails as stated for [combine]: the selector it returns shares its
    arguments, so [a.class('x')], a fluent call on the chain of [a],
    changes the text of [combine(a, '+', b)]. *)
Lemma combine_shares_counterexample :
  exists h1 h2,
    (a <- cssSelectorBuilder.element "div" ;;
     b <- cssSelectorBuilder.element "p" ;;
     cssSelectorBuilder.combine a "+" b) [] = (h1, Normal 2) /\
    stringify 2 h1 2 = Some "div + p" /\
    class 0 "x" h1 = (h2, Normal 0) /\
    stringify 2 h2 2 = Some "div.x + p".
Proof. do 2 eexists. repeat split; reflexivity. Qed.

(** C5, as the code has it: in every store built from facade calls,
    fragment calls on simple selectors and [combine] calls on selectors
    without fragments, every selector is a simple selector (no
    sub-builders) or a combinator node (no fragment populated).  The
    facade alone makes only such selectors. *)
Theorem built_selector_invariant (h : heap) (l : loc) (o : t) :
  built h -> h !! l = Some o -> selector_invariant o.
Proof.
  intros B. revert l o.
  induction B as [|h p h' res B IH D Hrun]; intros x o; [done|].
  destruct (decide (x = receiver p h)) as [->|Hne];
    [|rewrite (run_op_others p h h' res x Hrun Hne); apply IH].
  destruct p as [k v|a c b|k l v|l a c b]; simpl in *.
  - rewrite facade_run in Hrun. injection Hrun as <- <-.
    rewrite lookup_last. intros [= <-]. left. by destruct k.
  - rewrite facade_combine_run in Hrun. injection Hrun as <- <-.
    rewrite lookup_last. intros [= <-]. by right.
  - destruct (h !! l) as [o0|] eqn:H.
    + rewrite (run_call k h l o0 v H) in Hrun.
      destruct (later_populated k o0);
        [injection Hrun as <- <-; rewrite H; intros [= <-]; by eapply IH|].
      destruct (guarded k && truthy (stored k o0));
        [injection Hrun as <- <-; rewrite H; intros [= <-]; by eapply IH|].
      injection Hrun as <- <-.
      rewrite list_lookup_insert_eq by (by eapply lookup_lt_Some).
      intros [= <-]. left. rewrite subBuilders_record. by apply D.
    + rewrite (run_call_dangling k h l v H) in Hrun.
      injection Hrun as <- <-. by rewrite H.
  - destruct (h !! l) as [o0|] eqn:H.
    + rewrite (run_combine h l o0 a b c H) in Hrun. injection Hrun as <- <-.
      rewrite list_lookup_insert_eq by (by eapply lookup_lt_Some).
      intros [= <-]. right. rewrite fragment_populated_push. by apply D.
    + unfold combine, bind, write in Hrun. rewrite H in Hrun.
      injection Hrun as <- <-. by rewrite H.
Qed.

Lemma built_selector_invariant_witness :
  selector_invariant
    (mk None None [] None [] None [ISelector 0; IString "+"; ISelector 1]).
Proof.
  apply built_selector_invariant
    with (h := [mk (Some "div") None ["x"] None [] None [];
                mk (Some "p") None [] None [] None [];
                mk None None [] None [] None
                  [ISelector 0; IString "+"; ISelector 1]])
         (l := 2); [|reflexivity].
  apply built_step with (p := FacadeCombine 0 "+" 1) (res := Normal 2)
    (h := [mk (Some "div") None ["x"] None [] None [];
           mk (Some "p") None [] None [] None []]); [|exact I|reflexivity].
  apply built_step with (p := Fluent Class 0 "x") (res := Normal 0)
    (h := [mk (Some "div") None [] None [] None [];
           mk (Some "p") None [] None [] None []]);
    [|by intros o [= <-]|reflexivity].
  apply built_step with (p := Facade Element "p") (res := Normal 1)
    (h := [mk (Some "div") None [] None [] None []]);
    [|exact I|reflexivity].
  apply built_step with (p := Facade Element "div") (res := Normal 0)
    (h := []); [|exact I|reflexivity].
  apply built_empty.
Defined.

(** C5 fails as stated at
    [cssSelectorBuilder.combine(a, '+', b).element('div')]: the fluent call
    returns normally and the selector then has both a populated fragment
    and sub-builders. *)
Lemma selector_invariant_counterexample :
  exists h o,
    (a <- cssSelectorBuilder.element "a" ;;
     b <- cssSelectorBuilder.element "b" ;;
     r <- cssSelectorBuilder.combine a "+" b ;;
     element r "div") [] = (h, Normal 2) /\
    h !! 2 = Some o /\
    populated Element o = true /\
    subBuilders o = [ISelector 0; IString "+"; ISelector 1] /\
    ~ selector_invariant o.
Proof.
  do 2 eexists. repeat split; try reflexivity.
  intros [H|H]; discriminate H.
Qed.

End Operations.

(** ** Rectangle *)

Section Helpers.

(** C9, as the code has it: the object [new Rectangle(w, h)] holds [w] as
    its width and [h] as its height, [getArea()] returns their product and
    leaves the object as it is; [width === w] is true exactly when [w] is not
    [NaN], and [height === h] exactly when [h] is not [NaN]. *)
Theorem Rectangle_getArea (w h : float) :
  Rectangle.width (Rectangle.new w h) = w /\
  Rectangle.height (Rectangle.new w h) = h /\
  snd (Rectangle.getArea (Rectangle.new w h)) = PrimFloat.mul w h /\
  fst (Rectangle.getArea (Rectangle.new w h)) = Rectangle.new w h /\
  strict_equals (Rectangle.width (Rectangle.new w h)) w
  = negb (PrimFloat.is_nan w) /\
  strict_equals (Rectangle.height (Rectangle.new w h)) h
  = negb (PrimFloat.is_nan h).
Proof.
  repeat split; unfold strict_equals, PrimFloat.is_nan; simpl;
    by rewrite negb_involutive.
Qed.

(** C9 fails as stated at [new Rectangle(NaN, 1)]: the width is the [NaN]
    that was passed, and [width === NaN] is false. *)
Lemma Rectangle_nan_counterexample :
  Rectangle.width (Rectangle.new PrimFloat.nan 1%float) = PrimFloat.nan /\
  strict_equals (Rectangle.width (Rectangle.new PrimFloat.nan 1%float))
    PrimFloat.nan = false.
Proof. split; reflexivity. Qed.

Example Rectangle_10_20 :
  snd (Rectangle.getArea (Rectangle.new 10%float 20%float)) = 200%float /\
  strict_equals (Rectangle.width (Rectangle.new 10%float 20%float)) 10%float
  = true.
Proof. split; reflexivity. Qed.

End Helpers.

(** ** One fluent call *)

Section OneCall.
Import MyCssSelector.

Lemma guarded_truthy (k : kind) (o : t) :
  guarded k = true -> truthy (stored k o) = populated k o.
Proof.
  intros G. unfold populated. rewrite and_length_truthy.
  destruct k; try discriminate; unfold stored, prop; simpl;
    by match goal with |- context [of_option ?x] => destruct x end.
Qed.

Lemma later_populated_false (k : kind) (o : t) :
  later_populated k o = false <->
  forall l, rank k < rank l -> populated l o = false.
Proof.
  split.
  - intros H l Hlt. destruct (populated l o) eqn:P; [|done].
    by rewrite (later_populated_true k l o Hlt P) in H.
  - intros H. destruct (later_populated k o) eqn:E; [|done].
    unfold later_populated in E. apply existsb_exists in E.
    destruct E as (l & _ & [Hlt P]%andb_prop).
    apply Nat.ltb_lt in Hlt. by rewrite (H l Hlt) in P.
Qed.

(** What a successful call does to the test of [checkAfterElemsExist]. *)
Lemma populated_record (l k : kind) (v : string) (o : t) :
  populated l (record k v o)
  = if Nat.eqb (rank l) (rank k)
    then accumulates k || negb (String.eqb v "")
    else populated l o.
Proof.
  unfold populated. rewrite !and_length_truthy.
  destruct o as [e i cs a ps pe sb].
  destruct l, k; simpl; try reflexivity.
  - by destruct cs.
  - by destruct ps.
Qed.

(** X3: on a selector in the store, a fragment call returns normally exactly
    when no fragment of a later kind is populated and, for [element], [id]
    and [pseudoElement], the stored text is falsy; it then returns its
    receiver and writes the one property of its kind, nothing else. *)
Theorem fragment_call_succeeds (h : heap) (l : loc) (o : t) (K : kind)
    (v : string) :
  h !! l = Some o ->
  ((exists h' r, call K l v h = (h', Normal r)) <->
   later_populated K o = false /\
   (guarded K = true -> truthy (stored K o) = false)) /\
  (forall h' r, call K l v h = (h', Normal r) ->
     r = l /\ h' = <[l := record K v o]> h).
Proof.
  intros H. rewrite (run_call K h l o v H).
  destruct (later_populated K o).
  { split; [split|]; [by intros (? & ? & ?)|by intros [? _]|done]. }
  destruct (guarded K); simpl.
  - destruct (truthy (stored K o)).
    + split; [split|]; [by intros (? & ? & ?)|intros [_ F]; by discriminate F|done].
    + split; [split|]; [done|intros _; by do 2 eexists|by intros ? ? [= <- <-]].
  - split; [split|]; [done|intros _; by do 2 eexists|by intros ? ? [= <- <-]].
Qed.

Lemma fragment_call_succeeds_witness :
  let h := [mk (Some "a") None ["b"] None [] None []] in
  (exists h' r, call Class 0 "c" h = (h', Normal r)) /\
  call Class 0 "c" h = ([mk (Some "a") None ["b"; "c"] None [] None []], Normal 0).
Proof.
  intros h.
  destruct (fragment_call_succeeds h 0 (mk (Some "a") None ["b"] None [] None [])
              Class "c" eq_refl) as [[_ H1] H2].
  destruct (H1 (conj eq_refl (fun G => False_ind _ (Bool.diff_false_true G))))
    as (h' & r & Hc).
  split; [by exists h', r|].
  destruct (H2 h' r Hc) as [-> ->]. exact Hc.
Defined.

(** X4: a fragment call on a selector in the store raises nothing but the
    two errors of the class, each for its cause: the order error only when a
    fragment of a later kind is populated (so [pseudoElement] never raises
    it), the duplicate error only from [element], [id] and [pseudoElement]
    and only when the stored text is not empty. *)
Theorem fragment_call_error_cause (h h' : heap) (l : loc) (o : t) (K : kind)
    (v : string) (e : exn) :
  h !! l = Some o -> call K l v h = (h', Throw e) ->
  (e = OrderViolation /\ K <> PseudoElement /\
   exists L, rank K < rank L /\ populated L o = true) \/
  (e = DuplicateFragment /\ guarded K = true /\
   exists s, stored K o = VString s /\ s <> "").
Proof.
  intros H. rewrite (run_call K h l o v H).
  destruct (later_populated K o) eqn:L.
  - intros [= _ <-]. left. split; [done|].
    unfold later_populated in L. apply existsb_exists in L.
    destruct L as (k & _ & [Hlt P]%andb_prop). apply Nat.ltb_lt in Hlt.
    split; [intros ->; destruct k; simpl in Hlt; lia|by exists k].
  - destruct (guarded K) eqn:G; simpl; [|discriminate].
    destruct (truthy (stored K o)) eqn:T; [|discriminate].
    intros [= _ <-]. right. split; [done|]. split; [done|].
    destruct K; try discriminate; unfold stored, prop in *; simpl in *;
      match goal with
      | T : truthy (of_option ?x) = true |- _ =>
          destruct x as [s|]; [|discriminate]; exists s; split; [done|];
          intros ->; discriminate
      end.
Qed.

Lemma fragment_call_error_cause_witness :
  (OrderViolation = OrderViolation /\ Class <> PseudoElement /\
   exists L, rank Class < rank L /\
     populated L (mk None None [] None ["hover"] None []) = true) \/
  (OrderViolation = DuplicateFragment /\ guarded Class = true /\
   exists s, stored Class (mk None None [] None ["hover"] None []) = VString s
             /\ s <> "").
Proof.
  apply fragment_call_error_cause
    with (h := [mk None None [] None ["hover"] None []])
         (h' := [mk None None [] None ["hover"] None []]) (l := 0) (v := "c");
    reflexivity.
Defined.

(** X5: no fragment call takes a populated fragment away, whether it returns
    or raises, but for one case: [attr] with the empty string, which empties
    the attribute. *)
Theorem populated_stays (h h' : heap) (res : completion loc) (l : loc) (o : t)
    (K L : kind) (v : string) :
  h !! l = Some o -> populated L o = true ->
  (K = Attr -> L = Attr -> v <> "") ->
  call K l v h = (h', res) ->
  exists o', h' !! l = Some o' /\ populated L o' = true.
Proof.
  intros H P A. rewrite (run_call K h l o v H).
  destruct (later_populated K o); [intros [= <- _]; by exists o|].
  destruct (guarded K && truthy (stored K o)) eqn:G;
    [intros [= <- _]; by exists o|].
  intros [= <- _]. exists (record K v o).
  split; [apply list_lookup_insert_eq; by eapply lookup_lt_Some|].
  rewrite populated_record.
  destruct (Nat.eqb (rank L) (rank K)) eqn:E; [|exact P].
  apply Nat.eqb_eq in E.
  assert (L = K) as -> by (destruct L, K; simpl in E; by try lia).
  destruct K; simpl; try reflexivity;
    try (rewrite guarded_truthy, P in G by reflexivity; discriminate G).
  destruct (String.eqb_spec v ""); [|done]. by destruct A.
Qed.

Lemma populated_stays_witness :
  exists o',
    [mk None (Some "main") ["a"; "b"] None [] None []] !! 0 = Some o' /\
    populated Id o' = true.
Proof.
  apply populated_stays
    with (h := [mk None (Some "main") ["a"] None [] None []])
         (res := Normal 0) (o := mk None (Some "main") ["a"] None [] None [])
         (K := Class) (v := "b");
    [reflexivity | reflexivity | discriminate | reflexivity].
Defined.

(** X6: [attr('')] is accepted like any other text and leaves the attribute
    falsy: the selector then renders no brackets, and where the attribute was
    the only thing in the way a class can be added again. *)
Theorem attr_empty_unlocks (h : heap) (l : loc) (o : t) (c : string) :
  h !! l = Some o ->
  populated PseudoClass o = false -> populated PseudoElement o = false ->
  let o' := set_myAttr "" o in
  attr l "" h = (<[l := o']> h, Normal l) /\
  getAttr o' = "" /\
  class l c (<[l := o']> h) = (<[l := push_myClasses c o']> h, Normal l).
Proof.
  intros H P1 P2 o'.
  assert (H' : <[l := o']> h !! l = Some o')
    by (apply list_lookup_insert_eq; by eapply lookup_lt_Some).
  split; [|split; [reflexivity|]].
  - change (attr l "" h) with (call Attr l "" h).
    rewrite (run_call Attr h l o "" H).
    unfold later_populated. simpl. by rewrite P1, P2.
  - change (class l c (<[l := o']> h)) with (call Class l c (<[l := o']> h)).
    rewrite (run_call Class _ l o' c H').
    assert (later_populated Class o' = false) as ->.
    { apply later_populated_false. intros k Hk.
      change o' with (record Attr "" o). rewrite populated_record.
      destruct k; simpl in Hk; try lia; simpl; done. }
    simpl. by rewrite list_insert_insert_eq.
Qed.

Lemma attr_empty_unlocks_witness :
  let h := [mk (Some "a") None [] (Some "href") [] None []] in
  class 0 "c" h = (h, Throw OrderViolation) /\
  attr 0 "" h = ([mk (Some "a") None [] (Some "") [] None []], Normal 0) /\
  class 0 "c" [mk (Some "a") None [] (Some "") [] None []]
  = ([mk (Some "a") None ["c"] (Some "") [] None []], Normal 0).
Proof.
  intros h. split; [reflexivity|].
  destruct (attr_empty_unlocks h 0 (mk (Some "a") None [] (Some "href") [] None [])
              "c" eq_refl eq_refl eq_refl) as (H1 & _ & H2).
  exact (conj H1 H2).
Defined.

End OneCall.

(** ** Chains of fluent calls *)

Section Chains.
Import MyCssSelector.

Lemma rank_inj (k l : kind) : rank k = rank l -> k = l.
Proof. destruct k, l; simpl; intros E; by try lia. Qed.

Lemma settled_record (B k : kind) (v : string) (o : t) :
  settled B o -> rank B <= rank k -> v <> "" -> settled k (record k v o).
Proof.
  intros [_ Hb] Hle Hv. split.
  - rewrite populated_record, Nat.eqb_refl.
    destruct (String.eqb_spec v ""); [done|]. by rewrite orb_true_r.
  - intros L. rewrite populated_record.
    destruct (Nat.eqb (rank L) (rank k)) eqn:E.
    + apply Nat.eqb_eq in E. lia.
    + intros P. specialize (Hb L P). lia.
Qed.

Lemma settled_later (B k : kind) (o : t) :
  settled B o -> later_populated k o = Nat.ltb (rank k) (rank B).
Proof.
  intros [Pb Hb]. destruct (Nat.ltb_spec (rank k) (rank B)) as [Hlt|Hge].
  - by apply (later_populated_true k B).
  - apply later_populated_false. intros L Hl.
    destruct (populated L o) eqn:P; [|done]. specialize (Hb L P). lia.
Qed.

Lemma settled_duplicate (B k : kind) (o : t) :
  settled B o -> rank B <= rank k ->
  guarded k && truthy (stored k o) = guarded k && Nat.eqb (rank B) (rank k).
Proof.
  intros [Pb Hb] Hle. destruct (guarded k) eqn:G; [|done]. simpl.
  rewrite (guarded_truthy k o G).
  destruct (Nat.eqb_spec (rank B) (rank k)) as [E|N].
  - by rewrite <- (rank_inj _ _ E).
  - destruct (populated k o) eqn:P; [|done]. specialize (Hb k P). lia.
Qed.

(** One more call on a settled selector. *)
Lemma settled_call (B k : kind) (h : heap) (l : loc) (o : t) (v : string) :
  h !! l = Some o -> settled B o ->
  call k l v h =
    if follows (fun k => negb (guarded k)) B k
    then (<[l := record k v o]> h, Normal l)
    else (h, Throw (if Nat.ltb (rank k) (rank B)
                    then OrderViolation else DuplicateFragment)).
Proof.
  intros H S. rewrite (run_call k h l o v H), (settled_later B k o S).
  unfold follows.
  destruct (Nat.ltb_spec (rank k) (rank B)) as [Hlt|Hge].
  - destruct (Nat.ltb_spec (rank B) (rank k)); [lia|].
    destruct (Nat.eqb_spec (rank B) (rank k)); [lia|]. done.
  - rewrite (settled_duplicate B k o S Hge).
    destruct (Nat.ltb_spec (rank B) (rank k)) as [Hlt|Hge'].
    + destruct (Nat.eqb_spec (rank B) (rank k)); [lia|].
      by rewrite andb_false_r.
    + destruct (Nat.eqb_spec (rank B) (rank k)); [|lia].
      simpl. rewrite andb_true_r. by destruct (guarded k).
Qed.

Lemma chain_from (l : loc) (cs : list (kind * string)) :
  Forall (fun c => snd c <> "") cs ->
  forall (B : kind) (h : heap) (o : t),
    h !! l = Some o -> settled B o ->
    (exists h' r, chain l cs h = (h', Normal r)) <->
    in_order (fun k => negb (guarded k)) B (map fst cs) = true.
Proof.
  induction 1 as [|[k v] cs Hv Hcs IH]; intros B h o H S.
  - split; [done|]. intros _. by exists h, l.
  - simpl in *. unfold bind. rewrite (settled_call B k h l o v H S).
    destruct (follows _ B k) eqn:F; simpl.
    + apply (IH k _ (record k v o)).
      * apply list_lookup_insert_eq. by eapply lookup_lt_Some.
      * apply (settled_record B); [done| |done].
        unfold follows in F. apply orb_prop in F as [F|[F _]%andb_prop].
        -- apply Nat.ltb_lt in F. lia.
        -- apply Nat.eqb_eq in F. lia.
    + split; [by intros (? & ? & ?)|done].
Qed.

Lemma initial_unpopulated (L : kind) : populated L initial = false.
Proof. by destruct L. Qed.

Lemma first_call (k : kind) (v : string) (h : heap) :
  call k (length h) v (h ++ [initial])
  = (h ++ [record k v initial], Normal (length h)).
Proof.
  rewrite (run_call k _ _ initial v (lookup_last h initial)), insert_last.
  by destruct k.
Qed.

Lemma first_settled (k : kind) (v : string) :
  v <> "" -> settled k (record k v initial).
Proof.
  intros Hv. split.
  - rewrite populated_record, Nat.eqb_refl.
    destruct (String.eqb_spec v ""); [done|]. by rewrite orb_true_r.
  - intros L. rewrite populated_record.
    destruct (Nat.eqb (rank L) (rank k)) eqn:E.
    + apply Nat.eqb_eq in E. lia.
    + by rewrite initial_unpopulated.
Qed.

(** X1: a chain of fragment calls with non-empty texts on a new selector
    returns normally exactly when its kinds come in canonical order: never a
    kind that renders before the one just called, and [element], [id] and
    [pseudoElement] at most once; classes, attributes and pseudo-classes may
    repeat. *)
Theorem chain_returns_iff_canonical (cs : list (kind * string)) (h : heap) :
  Forall (fun c => snd c <> "") cs ->
  (exists h' r, (this <- new ;; chain this cs) h = (h', Normal r)) <->
  canonical_chain cs = true.
Proof.
  intros Hcs. unfold bind, new, canonical_chain.
  destruct Hcs as [|[k v] cs Hv Hcs].
  - split; [done|]. intros _. by do 2 eexists.
  - simpl in *. unfold bind. rewrite first_call.
    apply (chain_from (length h) cs Hcs k _ (record k v initial)).
    + apply lookup_last.
    + by apply first_settled.
Qed.

Lemma chain_returns_iff_canonical_witness :
  (exists h' r,
     (this <- new ;;
      chain this [(Element, "a"); (Class, "b"); (Class, "c"); (Attr, "d")]) []
     = (h', Normal r)) /\
  ~ (exists h' r,
       (this <- new ;; chain this [(Class, "b"); (Element, "a")]) []
       = (h', Normal r)).
Proof.
  split.
  - apply chain_returns_iff_canonical; [|reflexivity].
    repeat constructor; discriminate.
  - intros E. apply chain_returns_iff_canonical in E; [discriminate E|].
    repeat constructor; discriminate.
Defined.

End Chains.

Section ChainText.
Import MyCssSelector.

Lemma reduce_snoc {A B} (f : B -> A -> B) (init : B) (l : list A) (x : A) :
  reduce f init (l ++ [x]) = f (reduce f init l) x.
Proof. unfold reduce. by rewrite fold_left_app. Qed.

Lemma simple_text_record (k : kind) (v : string) (o : t) :
  v <> "" ->
  (forall L, rank k < rank L -> populated L o = false) ->
  (accumulates k = false -> populated k o = false) ->
  simple_text (record k v o) = simple_text o +:+ call_text (k, v).
Proof.
  intros Hv Hl Hk. destruct o as [e i cs a ps pe sb].
  pose proof (Hl Id) as HI. pose proof (Hl Class) as HC.
  pose proof (Hl Attr) as HA. pose proof (Hl PseudoClass) as HP.
  pose proof (Hl PseudoElement) as HE. clear Hl.
  unfold populated in *. rewrite !and_length_truthy in *.
  destruct v as [|c0 v0]; [done|].
  destruct k; unfold stored, prop in *; simpl in *.
  all: repeat match goal with
       | H : ?n < ?m -> _ |- _ =>
           first [ specialize (H ltac:(lia)) | clear H ]
       | H : ?x = ?x -> _ |- _ => specialize (H eq_refl)
       | H : false = false -> _ |- _ => specialize (H eq_refl)
       | H : true = false -> _ |- _ => clear H
       end.
  all: repeat match goal with
       | H : match of_option ?x with _ => _ end = false |- _ =>
           destruct x as [[|? ?]|]; simpl in H; try discriminate H; clear H
       | H : negb (length ?x =? 0) = false |- _ =>
           destruct x; simpl in H; try discriminate H; clear H
       end.
  all: unfold simple_text, getElement, getId, getClass, getAttr,
         getPseudoClass, getPseudoElement, call_text; simpl.
  all: rewrite ?reduce_snoc.
  all: rewrite ?app_empty_l, ?app_empty_r, ?app_assoc_s.
  all: reflexivity.
Qed.

Lemma follows_weaken (B k : kind) :
  follows accumulates B k = true ->
  follows (fun k => negb (guarded k)) B k = true.
Proof.
  unfold follows. intros [F|[F A]%andb_prop]%orb_prop.
  - by rewrite F.
  - rewrite F. destruct k; try discriminate A; by rewrite orb_true_r.
Qed.

Lemma chain_text_from (cs : list (kind * string)) :
  Forall (fun c => snd c <> "") cs ->
  forall (B : kind) (h : heap) (o : t),
    settled B o -> subBuilders o = [] ->
    in_order accumulates B (map fst cs) = true ->
    exists o',
      chain (length h) cs (h ++ [o]) = (h ++ [o'], Normal (length h)) /\
      subBuilders o' = [] /\
      simple_text o' = simple_text o +:+ chain_text cs.
Proof.
  induction 1 as [|[k v] cs Hv Hcs IH]; intros B h o S E O.
  - exists o. by rewrite app_empty_r.
  - simpl in *. apply andb_prop in O as [F O]. unfold bind.
    rewrite (settled_call B k _ _ o v (lookup_last h o) S),
      (follows_weaken B k F), insert_last.
    assert (Hle : rank B <= rank k).
    { unfold follows in F. apply orb_prop in F as [F|[F _]%andb_prop].
      - apply Nat.ltb_lt in F. lia.
      - apply Nat.eqb_eq in F. lia. }
    destruct (IH k h (record k v o)) as (o' & Hc & E' & T).
    + by apply (settled_record B).
    + by rewrite subBuilders_record.
    + exact O.
    + exists o'. split; [exact Hc|]. split; [exact E'|].
      rewrite T, simple_text_record, app_assoc_s; [done|done| |].
      * intros L Hl. destruct (populated L o) eqn:P; [|done].
        destruct S as [_ Hb]. specialize (Hb L P). lia.
      * intros A. destruct (populated k o) eqn:P; [|done].
        destruct S as [_ Hb]. specialize (Hb k P).
        unfold follows in F. rewrite A, andb_false_r, orb_false_r in F.
        apply Nat.ltb_lt in F. lia.
Qed.

(** X2: when the kinds of a chain with non-empty texts come in canonical
    order and no kind but class and pseudo-class repeats, the chain returns
    normally and [stringify] is the texts of its fragments one after the
    other, in the order of the calls: [v], [#v], [.v], [[v]], [:v], [::v]. *)
Theorem chain_stringify (cs : list (kind * string)) (h : heap) :
  Forall (fun c => snd c <> "") cs ->
  ordered_kinds accumulates (map fst cs) = true ->
  exists h',
    (this <- new ;; chain this cs) h = (h', Normal (length h)) /\
    forall fuel,
      stringify (Datatypes.S fuel) h' (length h) = Some (chain_text cs).
Proof.
  intros Hcs O. unfold bind, new.
  destruct Hcs as [|[k v] cs Hv Hcs].
  - exists (h ++ [initial]). split; [reflexivity|]. intros fuel.
    by rewrite (stringify_simple fuel _ _ _ (lookup_last h initial) eq_refl).
  - simpl in Hv, O. cbn [chain]. unfold bind. rewrite first_call.
    destruct (chain_text_from cs Hcs k h (record k v initial))
      as (o' & Hc & E & T);
      [by apply first_settled|by rewrite subBuilders_record|exact O|].
    exists (h ++ [o']). split; [exact Hc|]. intros fuel.
    rewrite (stringify_simple fuel _ _ _ (lookup_last h o') E), T.
    rewrite simple_text_record; [done|done| |].
    + intros L _. apply initial_unpopulated.
    + intros _. apply initial_unpopulated.
Qed.

Lemma chain_stringify_witness :
  exists h',
    (this <- new ;;
     chain this [(Element, "a"); (Class, "b"); (Class, "c"); (Attr, "d");
                 (PseudoElement, "e")]) []
    = (h', Normal 0) /\
    forall fuel, stringify (Datatypes.S fuel) h' 0 = Some "a.b.c[d]::e".
Proof.
  apply (chain_stringify
           [(Element, "a"); (Class, "b"); (Class, "c"); (Attr, "d");
            (PseudoElement, "e")] []); [|reflexivity].
  repeat constructor; discriminate.
Defined.

End ChainText.

(** ** More about [stringify] *)

Section Joining.
Import MyCssSelector.

Lemma concat_snoc (sep t : string) (ts : list string) :
  ts <> [] ->
  String.concat sep (ts ++ [t]) = String.concat sep ts +:+ sep +:+ t.
Proof.
  induction ts as [|x ts IH]; [done|]. intros _.
  destruct ts as [|y ts]; [reflexivity|].
  change (String.concat sep ((x :: y :: ts) ++ [t]))
    with (x +:+ sep +:+ String.concat sep ((y :: ts) ++ [t])).
  rewrite IH by done.
  change (String.concat sep (x :: y :: ts))
    with (x +:+ sep +:+ String.concat sep (y :: ts)).
  by rewrite !app_assoc_s.
Qed.

Lemma spaces_nonempty (n : nat) (s : string) :
  exists c r, spaces (Datatypes.S n) +:+ s = String c r.
Proof. by do 2 eexists. Qed.

Lemma trimStart_spaces (n : nat) (s : string) :
  trimStart (spaces n +:+ s) = trimStart s.
Proof. induction n as [|n IH]; [reflexivity|]. exact IH. Qed.

(** The accumulator of the [reduce] after the texts [ts]: one leading space
    for each, then the texts with single spaces between them. *)
Lemma join_after (ts : list string) (t : string) :
  join (spaces (length ts) +:+ String.concat " " ts) t
  = spaces (length (ts ++ [t])) +:+ String.concat " " (ts ++ [t]).
Proof.
  destruct ts as [|x ts]; [reflexivity|].
  rewrite length_app, Nat.add_comm, concat_snoc by done.
  destruct (spaces_nonempty (length ts) (String.concat " " (x :: ts)))
    as (c & r & E).
  change (length (x :: ts)) with (Datatypes.S (length ts)).
  rewrite E, join_next, <- E.
  change (spaces (1 + Datatypes.S (length ts)))
    with (" " +:+ spaces (Datatypes.S (length ts))).
  by rewrite !app_assoc_s.
Qed.

Lemma reduce_join (n : nat) (h : heap) (items : list item)
    (ts : list string) :
  Forall2 (fun it t => item_text n h it = Some t) items ts ->
  forall done,
    reduce_opt (step n h)
      (spaces (length done) +:+ String.concat " " done) items
    = Some (spaces (length (done ++ ts))
              +:+ String.concat " " (done ++ ts)).
Proof.
  induction 1 as [|it t items ts Ht _ IH]; intros done.
  - by rewrite app_nil_r.
  - simpl. unfold step at 1. rewrite Ht, join_after, IH.
    by rewrite <- app_assoc.
Qed.

(** X7: the text of a selector with sub-builders is the texts of its
    entries, whatever their number, with one space between neighbours and
    the white space at both ends trimmed away; the spaces the [reduce] piles
    up in front never show. *)
Theorem stringify_joins (n : nat) (h : heap) (l : loc) (o : t)
    (ts : list string) :
  h !! l = Some o -> subBuilders o <> [] ->
  Forall2 (fun it t => item_text n h it = Some t) (subBuilders o) ts ->
  stringify (Datatypes.S n) h l = Some (trim (String.concat " " ts)).
Proof.
  intros H Hne F. rewrite stringify_S, H.
  destruct (subBuilders o) as [|it items] eqn:E; [done|].
  cbn [length Nat.eqb negb].
  pose proof (reduce_join n h (it :: items) ts F []) as R.
  change (spaces (length (@nil string)) +:+ String.concat " " []) with ""
    in R.
  change ([] ++ ts) with ts in R. rewrite R.
  f_equal. unfold trim.
  destruct (String.eqb_spec (spaces (length ts) +:+ String.concat " " ts) "")
    as [Z|_].
  - rewrite <- (trimStart_spaces (length ts) (String.concat " " ts)), Z.
    reflexivity.
  - by rewrite trimStart_spaces.
Qed.

(** [x.combine(a, '+', b).combine(c, '>', d)] *)
Lemma stringify_joins_witness :
  let h := [mk (Some "a") None [] None [] None [];
            mk (Some "b") None [] None [] None [];
            mk None None [] None [] None
              [ISelector 0; IString "+"; ISelector 1;
               ISelector 1; IString ">"; ISelector 0]] in
  stringify 2 h 2 = Some "a + b b > a".
Proof.
  intros h.
  apply (stringify_joins 1 h 2
           (mk None None [] None [] None
              [ISelector 0; IString "+"; ISelector 1;
               ISelector 1; IString ">"; ISelector 0])
           ["a"; "+"; "b"; "b"; ">"; "a"]); [reflexivity|discriminate|].
  repeat constructor.
Defined.

Lemma trimStart_cases (s : string) :
  trimStart s = "" \/ starts_clean (trimStart s) = true.
Proof.
  induction s as [|c s IH]; [by left|]. simpl.
  destruct (isWhiteSpace c) eqn:W; [exact IH|]. right. simpl. by rewrite W.
Qed.

Lemma trimEnd_cases (s : string) :
  trimEnd s = "" \/ ends_clean (trimEnd s) = true.
Proof.
  induction s as [|c s IH]; [by left|]. simpl.
  destruct (trimEnd s) as [|d t] eqn:E.
  - destruct (isWhiteSpace c) eqn:W; [by left|]. right. simpl. by rewrite W.
  - right. destruct IH as [IH|IH]; [discriminate IH|exact IH].
Qed.

Lemma trimEnd_starts (s : string) :
  starts_clean s = true -> starts_clean (trimEnd s) = true.
Proof.
  destruct s as [|c s]; [done|]. simpl. intros W.
  destruct (trimEnd s); [|exact W].
  destruct (isWhiteSpace c) eqn:V; [discriminate W|]. simpl. by rewrite V.
Qed.

Lemma trim_cases (s : string) :
  trim s = "" \/ (starts_clean (trim s) = true /\ ends_clean (trim s) = true).
Proof.
  unfold trim. destruct (trimEnd_cases (trimStart s)) as [E|E]; [by left|].
  right. split; [|exact E].
  destruct (trimStart_cases s) as [Z|C]; [by rewrite Z in E|].
  by apply trimEnd_starts.
Qed.

(** X8: the text of a selector with sub-builders never begins or ends with
    white space: it is empty, or its first and last characters are not
    white space. *)
Theorem combinator_text_clean (n : nat) (h : heap) (l : loc) (o : t)
    (s : string) :
  h !! l = Some o -> subBuilders o <> [] ->
  stringify n h l = Some s ->
  s = "" \/ (starts_clean s = true /\ ends_clean s = true).
Proof.
  intros H Hne. destruct n as [|n]; [done|]. rewrite stringify_S, H.
  destruct (subBuilders o) as [|it items]; [done|].
  cbn [length Nat.eqb negb].
  destruct (reduce_opt _ _ _) as [r|]; [|done].
  intros [= <-]. apply trim_cases.
Qed.

Lemma combinator_text_clean_witness :
  "b" = "" \/ (starts_clean "b" = true /\ ends_clean "b" = true).
Proof.
  apply (combinator_text_clean 2
           [mk (Some " ") None [] None [] None [];
            mk (Some "b") None [] None [] None [];
            mk None None [] None [] None
              [ISelector 0; IString " "; ISelector 1]] 2
           (mk None None [] None [] None
              [ISelector 0; IString " "; ISelector 1]));
    [reflexivity|discriminate|reflexivity].
Defined.

(** X9: a fragment call on a selector with sub-builders, whether it returns
    or raises, never changes the text of that selector: [stringify] reads
    the sub-builders only.  (The sub-builders are taken not to lead back to
    the selector.) *)
Theorem combinator_ignores_fragments (h h' : heap) (res : completion loc)
    (l : loc) (o : t) (K : kind) (v : string) :
  h !! l = Some o -> subBuilders o <> [] ->
  (forall z, In (ISelector z) (subBuilders o) -> ~ reaches h z l) ->
  call K l v h = (h', res) ->
  forall fuel, stringify fuel h' l = stringify fuel h l.
Proof.
  intros H Hne Hz. rewrite (run_call K h l o v H).
  destruct (later_populated K o); [by intros [= <- _]|].
  destruct (guarded K && truthy (stored K o)); [by intros [= <- _]|].
  intros [= <- _] [|fuel]; [reflexivity|].
  rewrite !stringify_S, H.
  rewrite list_lookup_insert_eq by (by eapply lookup_lt_Some).
  rewrite subBuilders_record.
  rewrite (reduce_opt_ext (step fuel (<[l := record K v o]> h)) (step fuel h));
    [by destruct (subBuilders o)|].
  intros acc [z|s] Hin; unfold step; simpl; [|reflexivity].
  rewrite (stringify_frame fuel h _ z); [reflexivity|].
  intros y Hy. apply list_lookup_insert_ne. intros <-. by apply (Hz z).
Qed.

Lemma combinator_ignores_fragments_witness :
  let h := [mk (Some "a") None [] None [] None [];
            mk (Some "b") None [] None [] None [];
            mk None None [] None [] None
              [ISelector 0; IString "+"; ISelector 1]] in
  let h' := [mk (Some "a") None [] None [] None [];
             mk (Some "b") None [] None [] None [];
             mk (Some "div") None [] None [] None
               [ISelector 0; IString "+"; ISelector 1]] in
  call Element 2 "div" h = (h', Normal 2) /\
  forall fuel, stringify fuel h' 2 = stringify fuel h 2.
Proof.
  intros h h'. split; [reflexivity|].
  apply (combinator_ignores_fragments h h' (Normal 2) 2
           (mk None None [] None [] None
              [ISelector 0; IString "+"; ISelector 1]) Element "div");
    [reflexivity|discriminate| |reflexivity].
  intros z [E|[E|[E|[]]]]; try discriminate E; injection E as <-;
    intros R; inversion R as [|x y w o' L I R']; subst;
    injection L as <-; destruct I.
Defined.

End Joining.

(** ** When [stringify] returns *)

Section Returning.
Import MyCssSelector.

Lemma reduce_opt_Some_In {A B} (f : B -> A -> option B) (l : list A)
    (x : A) :
  In x l -> forall init r,
    reduce_opt f init l = Some r -> exists acc r', f acc x = Some r'.
Proof.
  induction l as [|y l IH]; [done|]. intros [->|Hin] init r; simpl.
  - destruct (f init x) as [r'|] eqn:F; [|done]. intros _. by exists init, r'.
  - destruct (f init y) as [acc|]; [|done]. by apply IH.
Qed.

Lemma reduce_opt_total {A B} (f : B -> A -> option B) (l : list A) :
  (forall x, In x l -> forall acc, exists r, f acc x = Some r) ->
  forall init, exists r, reduce_opt f init l = Some r.
Proof.
  induction l as [|y l IH]; intros T init; [by eexists|]. simpl.
  destruct (T y (or_introl eq_refl) init) as [acc ->].
  apply IH. intros x Hx. apply T. by right.
Qed.

(** A selector whose text is returned has sub-builders whose texts are
    returned, with less fuel. *)
Lemma stringify_sub (n : nat) (h : heap) (x z : loc) (o : t) (s : string) :
  stringify (Datatypes.S n) h x = Some s ->
  h !! x = Some o -> In (ISelector z) (subBuilders o) ->
  exists s', stringify n h z = Some s'.
Proof.
  rewrite stringify_S. intros Hs H Hin. rewrite H in Hs.
  destruct (subBuilders o) as [|it items] eqn:E; [done|].
  cbn [length Nat.eqb negb] in Hs.
  destruct (reduce_opt (step n h) "" (it :: items)) as [r|] eqn:R; [|done].
  destruct (reduce_opt_Some_In _ _ _ Hin _ _ R) as (acc & r' & F).
  unfold step in F. simpl in F.
  destruct (stringify n h z) as [s'|]; [by exists s'|done].
Qed.

Lemma stringify_reaches (h : heap) (x y : loc) :
  reaches h x y ->
  forall n s, stringify n h x = Some s -> exists s', stringify n h y = Some s'.
Proof.
  induction 1 as [x|x y z o H Hin R IH]; intros n s Hs; [by exists s|].
  destruct n as [|n]; [done|].
  destruct (stringify_sub n h x z o s Hs H Hin) as [s1 H1].
  destruct (IH n s1 H1) as [s2 H2]. exists s2.
  eapply stringify_fuel; [|exact H2]. lia.
Qed.

(** X10: [combine] takes any selector as an argument, the receiver itself or
    a selector that contains it included; [stringify] of a selector that is
    reached from one of its own sub-builders never returns a text, whatever
    the depth allowed to its recursion. *)
Theorem stringify_cycle_never_returns (h : heap) (l z : loc) (o : t) :
  h !! l = Some o -> In (ISelector z) (subBuilders o) -> reaches h z l ->
  forall fuel, stringify fuel h l = None.
Proof.
  intros H Hin R fuel. induction fuel as [|n IH]; [reflexivity|].
  destruct (stringify (Datatypes.S n) h l) as [s|] eqn:Hs; [|reflexivity].
  destruct (stringify_sub n h l z o s Hs H Hin) as [s1 H1].
  destruct (stringify_reaches h z l R n s1 H1) as [s2 H2].
  by rewrite IH in H2.
Qed.

(** [x = element('a'); x.combine(x, '+', x)] *)
Lemma stringify_cycle_never_returns_witness :
  (a <- cssSelectorBuilder.element "a" ;; combine a a "+" a) []
  = ([mk (Some "a") None [] None [] None
        [ISelector 0; IString "+"; ISelector 0]], Normal 0) /\
  forall fuel,
    stringify fuel
      [mk (Some "a") None [] None [] None
         [ISelector 0; IString "+"; ISelector 0]] 0 = None.
Proof.
  split; [reflexivity|].
  apply (stringify_cycle_never_returns _ 0 0
           (mk (Some "a") None [] None [] None
              [ISelector 0; IString "+"; ISelector 0]));
    [reflexivity|by left|apply reaches_here].
Defined.

Lemma lookup_snoc (h : heap) (o o' : t) (x : loc) :
  (h ++ [o']) !! x = Some o -> h !! x = Some o \/ (x = length h /\ o = o').
Proof.
  intros L. destruct (decide (x = length h)) as [->|N].
  - right. rewrite lookup_last in L. by injection L as <-.
  - left. by rewrite lookup_snoc_ne in L.
Qed.

Lemma ordered_step (p : op) (h h' : heap) (res : completion loc) :
  ordered h -> through_facade p h -> run_op p h = (h', res) -> ordered h'.
Proof.
  intros O T. destruct p as [k v|a c b|k l v|l a c b]; simpl in *; [| | |done].
  - rewrite facade_run. intros [= <- _] x o z L Hin.
    destruct (lookup_snoc _ _ _ _ L) as [L'|[-> ->]]; [by eapply O|].
    by rewrite subBuilders_record in Hin.
  - rewrite facade_combine_run. intros [= <- _] x o z L Hin.
    destruct (lookup_snoc _ _ _ _ L) as [L'|[-> ->]]; [by eapply O|].
    simpl in Hin. destruct Hin as [E|[E|[E|[]]]]; try discriminate E;
      injection E as <-; lia.
  - destruct (h !! l) as [o0|] eqn:H.
    + rewrite (run_call k h l o0 v H).
      destruct (later_populated k o0); [by intros [= <- _]|].
      destruct (guarded k && truthy (stored k o0)); [by intros [= <- _]|].
      intros [= <- _] x o z L Hin.
      destruct (decide (x = l)) as [->|N].
      * rewrite list_lookup_insert_eq in L by (by eapply lookup_lt_Some).
        injection L as <-. rewrite subBuilders_record in Hin. by eapply O.
      * rewrite list_lookup_insert_ne in L by done. by eapply O.
    + rewrite (run_call_dangling k h l v H). by intros [= <- _].
Qed.

Lemma facade_built_ordered (h : heap) : facade_built h -> ordered h.
Proof.
  induction 1 as [|h p h' res _ IH T Hrun]; [by intros x o z L|].
  by eapply ordered_step.
Qed.

Lemma ordered_returns (h : heap) :
  ordered h ->
  forall x, x < length h -> exists s, stringify (Datatypes.S x) h x = Some s.
Proof.
  intros O x. induction x as [x IH] using lt_wf_ind. intros Hx.
  destruct (lookup_lt_is_Some_2 h x Hx) as [o H].
  rewrite stringify_S. unfold loc in *. rewrite H.
  destruct (negb _); [|by eexists].
  destruct (reduce_opt_total (step x h) (subBuilders o)) with (init := "")
    as [r ->]; [|by eexists].
  intros [z|s] Hin acc; unfold step; simpl; [|by eexists].
  pose proof (O x o z H Hin) as Hz.
  destruct (IH z Hz ltac:(lia)) as [s Hs].
  rewrite (stringify_fuel (Datatypes.S z) x h z s ltac:(lia) Hs). by eexists.
Qed.

(** X11: when selectors are combined through the facade only, on selectors
    made before, every reference points to an older selector and [stringify]
    returns a text for every selector of the store, with a recursion no
    deeper than the number of selectors made before it. *)
Theorem facade_built_stringify_returns (h : heap) (l : loc) :
  facade_built h -> l < length h ->
  exists s, stringify (Datatypes.S l) h l = Some s.
Proof. intros B. apply ordered_returns. by apply facade_built_ordered. Qed.

Lemma facade_built_stringify_returns_witness :
  exists s,
    stringify 3
      [mk (Some "div") None [] None [] None [];
       mk (Some "p") None [] None ["hover"] None [];
       mk None None [] None [] None [ISelector 0; IString ">"; ISelector 1]]
      2 = Some s.
Proof.
  apply facade_built_stringify_returns; [|simpl; lia].
  apply facade_built_step with (p := FacadeCombine 0 ">" 1) (res := Normal 2)
    (h := [mk (Some "div") None [] None [] None [];
           mk (Some "p") None [] None ["hover"] None []]);
    [|simpl; lia|reflexivity].
  apply facade_built_step with (p := Fluent PseudoClass 1 "hover")
    (res := Normal 1)
    (h := [mk (Some "div") None [] None [] None [];
           mk (Some "p") None [] None [] None []]); [|exact I|reflexivity].
  apply facade_built_step with (p := Facade Element "p") (res := Normal 1)
    (h := [mk (Some "div") None [] None [] None []]); [|exact I|reflexivity].
  apply facade_built_step with (p := Facade Element "div") (res := Normal 0)
    (h := []); [|exact I|reflexivity].
  apply facade_built_empty.
Defined.

End Returning.

(** ** Edges of the helpers *)

Section Edges.
Import MyCssSelector.

(** [rank] is the index in [this.order]. *)
Lemma rank_indexOf (k : kind) :
  indexOf (kind_name k) order = Z.of_nat (rank k) /\
  order = map kind_name all_kinds.
Proof. by destruct k. Qed.

Lemma find_all (p : string -> bool) :
  truthy (of_option (List.find p order))
  = existsb (fun k => p (kind_name k)) all_kinds.
Proof.
  vm_compute;
    repeat match goal with
           | |- context [p ?x] => destruct (p x)
           end; reflexivity.
Qed.

Lemma indexOf_absent (x : string) (l : list string) (i : Z) :
  ~ In x l -> indexOf_from x l i = (-1)%Z.
Proof.
  revert i. induction l as [|y l IH]; intros i N; [reflexivity|]. simpl.
  destruct (String.eqb_spec y x) as [->|_]; [destruct N; by left|].
  apply IH. intros Hin. apply N. by right.
Qed.

(** X12: for a name that is not one of the six properties,
    [checkAfterElemsExist] finds no index, takes the whole of [order] and
    raises the order error as soon as any fragment at all is populated; it
    never writes to the store. *)
Theorem check_unknown_name (h : heap) (l : loc) (o : t) (name : string) :
  h !! l = Some o -> ~ In name order ->
  checkAfterElemsExist l name h
  = (h, if fragment_populated o then Throw OrderViolation else Normal tt).
Proof.
  intros H N. unfold checkAfterElemsExist, bind. rewrite (run_read _ _ _ H).
  unfold indexOf. rewrite (indexOf_absent name order 0 N).
  change (slice (-1 + 1)%Z order) with order.
  rewrite find_all. unfold fragment_populated, populated, stored.
  by destruct (existsb _ _).
Qed.

Lemma check_unknown_name_witness :
  checkAfterElemsExist 0 "myElem" [mk (Some "a") None [] None [] None []]
  = ([mk (Some "a") None [] None [] None []], Throw OrderViolation).
Proof.
  apply (check_unknown_name _ 0 (mk (Some "a") None [] None [] None []));
    [reflexivity|].
  intros [E|[E|[E|[E|[E|[E|[]]]]]]]; discriminate E.
Defined.

(** X13: [fromJSON] raises exactly when [JSON.parse] raises, with the same
    error, or the text parses to [null], or the prototype passed is neither
    an object nor [null]: the last two are refused by
    [Object.setPrototypeOf], [null] first.  When it returns, a primitive is
    what was parsed, and an array or an object has the prototype that was
    passed ([null] included), whatever prototype the parser gave it. *)
Theorem fromJSON_outcome {P : Type}
    (JSON_parse : string -> completion (jsvalue P)) (proto : protoarg P)
    (json : string) :
  (forall e,
     fromJSON JSON_parse proto json = Throw e <->
     JSON_parse json = Throw e \/
     (JSON_parse json = Normal JNull /\ e = NotAnObject) \/
     (exists v, JSON_parse json = Normal v /\ v <> JNull /\
                proto = PNotObject /\ e = BadPrototype)) /\
  (forall v,
     fromJSON JSON_parse proto json = Normal v ->
     exists slot,
       match proto with
       | PObject p => slot = Some p
       | PNull => slot = None
       | PNotObject => False
       end /\
       match v with
       | JNull => False
       | JArray p elems =>
           p = slot /\ exists p0, JSON_parse json = Normal (JArray p0 elems)
       | JObject p fields =>
           p = slot /\
           exists p0, JSON_parse json = Normal (JObject p0 fields)
       | _ => JSON_parse json = Normal v
       end).
Proof.
  unfold fromJSON. destruct (JSON_parse json) as [o|e0]; split.
  - intros e. split.
    + destruct o, proto; simpl; intros [= <-]; auto;
        right; right; eexists; by repeat split.
    + intros [E|[[E ->]|(v & E & N & -> & ->)]]; [discriminate E| |].
      * by injection E as ->.
      * injection E as ->. by destruct v.
  - intros v. destruct o, proto; simpl; intros [= <-];
      eexists; (split; [reflexivity|]); eauto.
  - intros e. split; [intros [= <-]; by left|].
    intros [E|[[E _]|(v & E & _)]]; [by injection E as ->| |]; discriminate E.
  - intros v. discriminate.
Qed.

End Edges.
